(** * Splinter driver: homography transform with B-spline interpolation

    A shallow embedding of the two driver files of the repository,
    [splinter_transform.c] and [bspline_main.c], and the properties of
    the driver that the specification states.

    Conventions of the embedding.
    - A C [int] is a [Z].  Signed overflow in arithmetic and
      out-of-range conversions of doubles are undefined behaviour in C
      and lie outside the model; a numeral read by [atoi] or [%d] is
      reduced to the 32 bits of an [int].
    - A C [double] is an exact rational [Q]: rounding, infinities and
      NaN lie outside the model, comparisons and arithmetic are exact.
    - A C string is the [string] of its characters before the
      terminating NUL.
    - The interpolation core ([splinter_plan], [splinter],
      [splinter_destroy_plan]), the homography tools
      ([invert_homography], [apply_homography]), the image reader, the
      constant [MAX_ORDER] and the number scanner of the C library are
      not part of the two files: they are parameters of the embedding.
      The calls into the core are recorded in a trace.
    - Messages on [stderr], the timer, the writing of the output file
      and the allocation of the buffers are not modelled. *)

From Stdlib Require Import ZArith QArith Qround Qpower Lia Lra Lqa List String Ascii.
From Stdlib Require Import Reals Qreals.
From Equations Require Import Equations.
From stdpp Require Import gmap list.
Import ListNotations.
Open Scope Z_scope.

(** ** Control structures *)

(** [for (int i = lo; i < hi; i++) body] on a state [S], for a body that
    assigns neither [i] nor [hi]: the body runs for [lo], [lo+1], ... *)
Fixpoint for_iter {S : Type} (n : nat) (i : Z) (body : Z -> S -> S) (s : S) : S :=
  match n with
  | O => s
  | Datatypes.S n' => for_iter n' (i + 1) body (body i s)
  end.

Definition for_int {S : Type} (lo hi : Z) (body : Z -> S -> S) (s : S) : S :=
  for_iter (Z.to_nat (hi - lo)) lo body s.

(** ** Types shared by the two files *)

(** [BoundaryExt] of splinter.h, in the order the driver names them. *)
Inductive BoundaryExt :=
| BOUNDARY_CONSTANT
| BOUNDARY_PERIODIC
| BOUNDARY_HSYMMETRIC
| BOUNDARY_WSYMMETRIC.

(** Calls into the interpolation core, in program order.  [Plan] is the
    type of the handle [splinter_plan_t]. *)
Inductive event (Plan : Type) :=
| PlanBuilt (inp : list Q) (w h c n : Z) (boundary : BoundaryExt)
            (eps : Q) (larger : Z)
| Evaluated (plan : Plan) (x y : Q)
| PlanDestroyed (plan : Plan).
Arguments PlanBuilt {Plan}.
Arguments Evaluated {Plan}.
Arguments PlanDestroyed {Plan}.

(** The store reached through the pointer [out], the current value of
    that pointer, and the calls made so far. *)
Record xstate (Plan : Type) := XState {
  mem : gmap Z Q;
  out : Z;
  trace : list (event Plan)
}.
Arguments XState {Plan}.
Arguments mem {Plan}.
Arguments out {Plan}.
Arguments trace {Plan}.

(** A value returned, or the process ended by [exit]. *)
Inductive result (A : Type) :=
| Return (a : A)
| Exit (status : Z).
Arguments Return {A}.
Arguments Exit {A}.

(** ** The C library functions the driver calls *)

Definition EXIT_SUCCESS : Z := 0.
Definition EXIT_FAILURE : Z := 1.

Definition strlen (s : string) : nat := String.length s.

Definition char_code (c : ascii) : Z := Z.of_nat (nat_of_ascii c).

(** [strncmp(s1, s2, n)] compares at most [n] characters, the end of a
    string counting as the smallest character.  The C standard fixes
    the sign of the result only: the model returns -1, 0 or 1. *)
Fixpoint strncmp (s1 s2 : string) (n : nat) : Z :=
  match n with
  | O => 0
  | Datatypes.S n' =>
      match s1, s2 with
      | EmptyString, EmptyString => 0
      | EmptyString, String _ _ => -1
      | String _ _, EmptyString => 1
      | String c1 r1, String c2 r2 =>
          if Ascii.eqb c1 c2 then strncmp r1 r2 n'
          else if char_code c1 <? char_code c2 then -1 else 1
      end
  end.

(** [isspace] in the C locale. *)
Definition isspace (c : ascii) : bool :=
  let n := char_code c in (n =? 32) || ((9 <=? n) && (n <=? 13)).

Fixpoint skip_space (s : string) : string :=
  match s with
  | String c r => if isspace c then skip_space r else s
  | EmptyString => s
  end.

Definition digit_value (c : ascii) : option Z :=
  let n := char_code c in
  if (48 <=? n) && (n <=? 57) then Some (n - 48) else None.

(** The longest run of decimal digits at the start of [s], accumulated
    on [acc], the number of digits read and the rest of the string. *)
Fixpoint scan_digits (s : string) (acc : Z) (len : nat) : Z * nat * string :=
  match s with
  | String c r =>
      match digit_value c with
      | Some d => scan_digits r (10 * acc + d) (Datatypes.S len)
      | None => (acc, len, s)
      end
  | EmptyString => (acc, len, s)
  end.

(** The ranges of [long] and [int], 64 and 32 bits. *)
Definition LONG_MIN : Z := - 2 ^ 63.
Definition LONG_MAX : Z := 2 ^ 63 - 1.
Definition INT_MAX : Z := 2 ^ 31 - 1.

(** What [strtol] returns for the number [v]: [v] kept within the range
    of [long]. *)
Definition strtol_value (v : Z) : Z := Z.max LONG_MIN (Z.min LONG_MAX v).

(** The conversion of a [long] to [int]: its low 32 bits, signed. *)
Definition int_of_long (v : Z) : Z := (v + 2 ^ 31) mod 2 ^ 32 - 2 ^ 31.

(** A decimal integer at the start of [s], as [atoi] and [%d] store it
    in an [int]: an optional sign and at least one digit, read as
    [strtol] does in base 10 without the white space, then converted to
    [int].  For a number outside the range of [int] the C standard
    fixes no result; the one here is that of the GNU C library with a
    [long] of 64 bits. *)
Definition scan_int (s : string) : option (Z * string) :=
  let '(neg, body) :=
    match s with
    | String "-" r => (true, r)
    | String "+" r => (false, r)
    | _ => (false, s)
    end in
  match scan_digits body 0 0 with
  | (_, O, _) => None
  | (v, _, rest) =>
      Some (int_of_long (strtol_value (if neg : bool then - v else v)), rest)
  end.

Definition atoi (s : string) : Z :=
  match scan_int (skip_space s) with
  | Some (v, _) => v
  | None => 0
  end.

Fixpoint string_drop (n : nat) (s : string) : string :=
  match n, s with
  | Datatypes.S n', String _ r => string_drop n' r
  | _, _ => s
  end.

(** A [const char *] into a string: the string and an offset.  The
    characters it points to, when the offset lies within the string or
    on its terminator. *)
Definition deref (base : string) (off : Z) : option string :=
  if (0 <=? off) && (off <=? Z.of_nat (strlen base))
  then Some (string_drop (Z.to_nat off) base) else None.

(** What [sscanf(s, "%lg%c%n", &d, &c, &w)] returns and assigns. *)
Inductive scan_lgc :=
| ScanEOF
| ScanNoMatch
| ScanDouble (d : Q)
| ScanDoubleChar (d : Q) (c : ascii) (w : Z).

Definition scan_count (r : scan_lgc) : Z :=
  match r with
  | ScanEOF => -1
  | ScanNoMatch => 0
  | ScanDouble _ => 1
  | ScanDoubleChar _ _ _ => 2
  end.

(** ** A decimal number scanner

    The driver is parameterised by the floating-point scanner of the C
    library; this one reads an optional sign, digits and an optional
    fraction, and serves for running the driver on concrete command
    lines. *)
Definition strtod_decimal (s : string) : option (Q * nat) :=
  let '(neg, body, ns) :=
    match s with
    | String "-" r => (true, r, 1%nat)
    | String "+" r => (false, r, 1%nat)
    | _ => (false, s, 0%nat)
    end in
  let '(ip, ni, rest) := scan_digits body 0 0 in
  let '(fp, nf, nd) :=
    match rest with
    | String "." r =>
        let '(v, k, _) := scan_digits r 0 0 in (v, k, 1%nat)
    | _ => (0, 0%nat, 0%nat)
    end in
  match (ni + nf)%nat with
  | O => None
  | _ =>
      let v := (inject_Z ip + inject_Z fp / inject_Z (10 ^ Z.of_nat nf))%Q in
      Some (Qred (if neg : bool then - v else v), (ns + ni + nd + nf)%nat)
  end.

(** ** Sample collaborators

    A projective map and its adjugate, a one-plane image and a plan
    that records its construction, for running the driver on concrete
    inputs. *)
Definition sample_apply (H : list Q) (p : Q * Q) : Q * Q :=
  let e k := nth k H 0%Q in
  let '(x, y) := p in
  let z := (e 6%nat * x + e 7%nat * y + e 8%nat)%Q in
  (((e 0%nat * x + e 1%nat * y + e 2%nat) / z)%Q,
   ((e 3%nat * x + e 4%nat * y + e 5%nat) / z)%Q).

Definition sample_invert (H : list Q) : list Q :=
  let e k := nth k H 0%Q in
  map Qred
  [ (e 4%nat * e 8%nat - e 5%nat * e 7%nat)%Q; (e 2%nat * e 7%nat - e 1%nat * e 8%nat)%Q;
    (e 1%nat * e 5%nat - e 2%nat * e 4%nat)%Q; (e 5%nat * e 6%nat - e 3%nat * e 8%nat)%Q;
    (e 0%nat * e 8%nat - e 2%nat * e 6%nat)%Q; (e 2%nat * e 3%nat - e 0%nat * e 5%nat)%Q;
    (e 3%nat * e 7%nat - e 4%nat * e 6%nat)%Q; (e 1%nat * e 6%nat - e 0%nat * e 7%nat)%Q;
    (e 0%nat * e 4%nat - e 1%nat * e 3%nat)%Q ].

Definition sample_plan : Type := list Q * Z * BoundaryExt * Z.

Definition sample_splinter_plan (inp : list Q) (w h c n : Z)
    (boundary : BoundaryExt) (eps : Q) (larger : Z) : sample_plan :=
  (inp, n, boundary, larger).

Definition sample_splinter (plan : sample_plan) (x y : Q) (k : Z) : Q :=
  Qred (x + 10 * y + 100 * inject_Z k).

Definition sample_read (filename : string) : list Q * Z * Z * Z :=
  ([1%Q; 2%Q; 3%Q; 4%Q; 5%Q; 6%Q], 3, 2, 1).

Definition sample_wild_sscanf (base : string) (off : Z) : scan_lgc := ScanEOF.

Definition sample_MAX_ORDER : Z := 16.
Definition sample_indeterminate_int : Z := 0.
Definition sample_indeterminate_double (k : nat) : Q := 0%Q.

(** The map [(x, y) -> (2x + 1, 2y - 1)]. *)
Definition sample_H : list Q := [2; 0; 1; 0; 2; -1; 0; 0; 1]%Q.

(** ** The pixels of an output area, row by row *)
Definition pixels (wout hout : Z) : list (Z * Z) :=
  flat_map (fun j => map (fun i => (i, j)) (seqZ 0 wout)) (seqZ 0 hout).

(** ** Notions the statements use *)

(** The names [read_ext] tries, in order, with the extension of each. *)
Definition boundary_names : list (string * BoundaryExt) :=
  [ ("constant"%string, BOUNDARY_CONSTANT);
    ("periodic"%string, BOUNDARY_PERIODIC);
    ("hsymmetric"%string, BOUNDARY_HSYMMETRIC);
    ("wsymmetric"%string, BOUNDARY_WSYMMETRIC) ].

(** The first name of which [b] is a prefix. *)
Definition first_boundary (b : string) : option BoundaryExt :=
  option_map snd (find (fun p => String.prefix b (fst p)) boundary_names).

(** [m] is the least, or the greatest, element of [l]. *)
Definition is_min (m : Q) (l : list Q) : Prop :=
  In m l /\ forall v, In v l -> (m <= v)%Q.
Definition is_max (m : Q) (l : list Q) : Prop :=
  In m l /\ forall v, In v l -> (v <= m)%Q.

Section Driver.

Set Default Proof Using "Type".

(** *** splinter_transform.c *)

Variable Plan : Type.
Variable splinter_plan :
  list Q -> Z -> Z -> Z -> Z -> BoundaryExt -> Q -> Z -> Plan.
(** [splinter plan x y k] is the value left in [outp[k]] by
    [splinter(outp, x, y, plan)]. *)
Variable splinter : Plan -> Q -> Q -> Z -> Q.
Variable invert_homography : list Q -> list Q.
Variable apply_homography : list Q -> Q * Q -> Q * Q.

Definition log (e : event Plan) (st : xstate Plan) : xstate Plan :=
  XState (mem st) (out st) (trace st ++ [e]).

(** [out[idx] = v] *)
Definition store (idx : Z) (v : Q) (st : xstate Plan) : xstate Plan :=
  XState (<[out st + idx := v]> (mem st)) (out st) (trace st).

(** [++out] *)
Definition incr_out (st : xstate Plan) : xstate Plan :=
  XState (mem st) (out st + 1) (trace st).

(** Body of the loop on [i], lines 59-64. *)
Definition pixel_body (x0 : Q) (wout hout c : Z) (iH : list Q) (plan : Plan)
    (p1 : Q) (i : Z) (st : xstate Plan) : xstate Plan :=
  let p0 := (inject_Z i + x0)%Q in
  let q := apply_homography iH (p0, p1) in
  let outp := splinter plan (fst q) (snd q) in
  let st := log (Evaluated plan (fst q) (snd q)) st in
  let st := for_int 0 c (fun k st => store (k * wout * hout) (outp k) st) st in
  incr_out st.

(** Body of the loop on [j], lines 57-65. *)
Definition row_body (x0 y0 : Q) (wout hout c : Z) (iH : list Q) (plan : Plan)
    (j : Z) (st : xstate Plan) : xstate Plan :=
  let p1 := (inject_Z j + y0)%Q in
  for_int 0 wout (pixel_body x0 wout hout c iH plan p1) st.

Definition splinter_homography_geom (st : xstate Plan)
    (x0 y0 : Q) (wout hout : Z) (inp : list Q) (w h c n : Z)
    (boundary : BoundaryExt) (eps : Q) (larger : Z) (H : list Q)
    : xstate Plan :=
  let iH := invert_homography H in
  let plan := splinter_plan inp w h c n boundary eps larger in
  let st := log (PlanBuilt inp w h c n boundary eps larger) st in
  let st := for_int 0 hout (row_body x0 y0 wout hout c iH plan) st in
  log (PlanDestroyed plan) st.

Definition splinter_homography (st : xstate Plan)
    (inp : list Q) (w h c n : Z)
    (boundary : BoundaryExt) (eps : Q) (larger : Z) (H : list Q)
    : xstate Plan :=
  splinter_homography_geom st 0 0 w h inp w h c n boundary eps larger H.

(** *** bspline_main.c *)

(** [MAX_ORDER] of the interpolation core's header. *)
Variable MAX_ORDER : Z.
(** The floating-point scanner of the C library ([strtod], and [%lg] of
    [sscanf]) on a string without leading white space: the value and
    the number of characters read, or no number at all. *)
Variable strtod : string -> option (Q * nat).
(** What [sscanf] with the format ["%lg%c%n"] does when its argument
    points outside the string: it reads whatever memory is there. *)
Variable wild_sscanf : string -> Z -> scan_lgc.
(** The values of locals that are read before they are assigned. *)
Variable indeterminate_int : Z.
Variable indeterminate_double : nat -> Q.
(** The decoded image: the samples, then [w], [h] and [c]. *)
Variable iio_read_image_double_split : string -> list Q * Z * Z * Z.

Definition atof (s : string) : Q :=
  match strtod (skip_space s) with
  | Some (d, _) => d
  | None => 0%Q
  end.

(** A local array of doubles, not yet assigned. *)
Definition uninit (n : nat) : list Q := map indeterminate_double (seq 0 n).

Definition aget (a : list Q) (i : Z) : Q := nth (Z.to_nat i) a 0%Q.
Definition aset (a : list Q) (i : Z) (v : Q) : list Q := <[Z.to_nat i := v]> a.

(** [sscanf(base + off, "%lg%c%n", ...)] *)
Definition sscanf_lg_c_n (base : string) (off : Z) : scan_lgc :=
  match deref base off with
  | None => wild_sscanf base off
  | Some s =>
      let s1 := skip_space s in
      match s1 with
      | EmptyString => ScanEOF
      | _ =>
          match strtod s1 with
          | None => ScanNoMatch
          | Some (d, k) =>
              match string_drop k s1 with
              | EmptyString => ScanDouble d
              | String c _ =>
                  ScanDoubleChar d c
                    (Z.of_nat (strlen s - strlen s1 + k + 1))
              end
          end
      end
  end.

(** The loop of [parse_doubles]: [i] numbers are stored, [w] holds what
    the last [%n] assigned, [s] is [base + off].  The loop goes on while
    [sscanf] returns 1 or 2 ([scan_count]); when it returns 1 the
    directive [%n] is not reached and [w] keeps its value. *)
Equations? parse_doubles_loop (t : list Q) (nmax : Z) (base : string)
    (i w off : Z) : list Q * Z by wf (Z.to_nat (nmax - i)) lt :=
  parse_doubles_loop t nmax base i w off with Z_lt_dec i nmax => {
    | right _ := (t, i);
    | left _ with sscanf_lg_c_n base off => {
        | ScanEOF := (t, i);
        | ScanNoMatch := (t, i);
        | ScanDouble d :=
            parse_doubles_loop (aset t i d) nmax base (i + 1) w (off + w);
        | ScanDoubleChar d _ w' :=
            parse_doubles_loop (aset t i d) nmax base (i + 1) w' (off + w') } }.
Proof. all: lia. Qed.

Definition parse_doubles (t : list Q) (nmax : Z) (s : string) : list Q * Z :=
  parse_doubles_loop t nmax s 0 indeterminate_int 0.

(** [sscanf(g, "%dx%d%lg%lg", w, h, x, y)]: the value returned (the
    number of items converted, -1 at the end of the input) and the
    items converted, in the order [w], [h], [x], [y]. *)
Definition sscanf_d_x_d_lg_lg (g : string)
    : Z * (option Z * option Z * option Q * option Q) :=
  match skip_space g with
  | EmptyString => (-1, (None, None, None, None))
  | s0 =>
  match scan_int s0 with
  | None => (0, (None, None, None, None))
  | Some (w, s1) =>
  match s1 with
  | String "x" s2 =>
  match scan_int (skip_space s2) with
  | None => (1, (Some w, None, None, None))
  | Some (h, s3) =>
  match strtod (skip_space s3) with
  | None => (2, (Some w, Some h, None, None))
  | Some (x, k) =>
  match strtod (skip_space (string_drop k (skip_space s3))) with
  | None => (3, (Some w, Some h, Some x, None))
  | Some (y, _) => (4, (Some w, Some h, Some x, Some y))
  end end end
  | _ => (1, (Some w, None, None, None))
  end end end.

(** A variable passed to [sscanf], after the call: the item converted
    for it, or its value before the call. *)
Definition assigned {A : Type} (item : option A) (before : A) : A :=
  match item with
  | Some v => v
  | None => before
  end.

(** The four corners of the image through the homography, lines 108-112. *)
Definition transform_corners (w h : Z) (H : list Q) : list Q :=
  for_int 0 4
    (fun i hc =>
       let c := (inject_Z (Z.land i 1 * w),
                 inject_Z (Z.shiftr (Z.land i 2) 1 * h)) in
       let r := apply_homography H c in
       aset (aset hc (2 * i) (fst r)) (2 * i + 1) (snd r))
    (uninit 8).

(** The body of the loops of lines 114-119: the coordinate [s] of the
    point [i] updates the bounds [bb[s]] and [bb[s+2]]. *)
Definition bb_update (hc : list Q) (s i : Z) (bb : list Q) : list Q :=
  if Qlt_le_dec (aget hc (2 * i + s)) (aget bb s)
  then aset bb s (aget hc (2 * i + s))
  else if Qlt_le_dec (aget bb (s + 2)) (aget hc (2 * i + s))
  then aset bb (s + 2) (aget hc (2 * i + s))
  else bb.

(** The bounding box of the four points, lines 113-119. *)
Definition bounding_box (hc : list Q) : list Q :=
  let bb := [aget hc 0; aget hc 1; aget hc 0; aget hc 1] in
  for_int 0 2 (fun s bb => for_int 1 4 (bb_update hc s) bb) bb.

(** [parse_geometry]: the value returned, then [*x], [*y], [*w], [*h]. *)
Definition parse_geometry (x y : Q) (w h : Z) (H : list Q) (g : string)
    : Z * (Q * Q * Z * Z) :=
  if strncmp g "center" (strlen g) =? 0 then
    let c := (x + inject_Z w / 2, y + inject_Z h / 2)%Q in
    let hc := apply_homography H c in
    (0, ((fst hc - inject_Z w / 2)%Q, (snd hc - inject_Z h / 2)%Q, w, h))
  else if strncmp g "auto" (strlen g) =? 0 then
    let hc := transform_corners w h H in
    let bb := bounding_box hc in
    (0, (aget bb 0, aget bb 1,
         Qceiling (aget bb 2 - aget bb 0), Qceiling (aget bb 3 - aget bb 1)))
  else
    let '(n, (ow, oh, ox, oy)) := sscanf_d_x_d_lg_lg g in
    let w := assigned ow w in
    let h := assigned oh h in
    let x := assigned ox 0%Q in
    let y := assigned oy 0%Q in
    if negb (n =? 2) && negb (n =? 4) then (1, (x, y, w, h))
    else if (w <=? 0) || (h <=? 0) then (1, (x, y, w, h))
    else (0, (x, y, w, h)).

(** [read_ext]: the extension, and [*larger] after the call. *)
Definition read_ext (boundary : string) (larger : Z)
    : result (BoundaryExt * Z) :=
  if strncmp boundary "constant" (strlen boundary) =? 0 then
    Return (BOUNDARY_CONSTANT, if larger =? 0 then 1 else larger)
  else if strncmp boundary "periodic" (strlen boundary) =? 0 then
    Return (BOUNDARY_PERIODIC, larger)
  else if strncmp boundary "hsymmetric" (strlen boundary) =? 0 then
    Return (BOUNDARY_HSYMMETRIC, larger)
  else if strncmp boundary "wsymmetric" (strlen boundary) =? 0 then
    Return (BOUNDARY_WSYMMETRIC, larger)
  else Exit EXIT_FAILURE.

(** The loop of [fix_precision]: [for(int i=0; i<eps; i++) tmp *= 0.1],
    with the product taken exactly.  The counter is an [int]: it stays
    in range when [eps] is at most [INT_MAX], and the statements that
    speak of larger values speak of the loop as written, without the
    overflow of its counter. *)
Equations? fix_precision_loop (eps : Q) (i : Z) (tmp : Q) : Q
    by wf (Z.to_nat (Qceiling eps - i)) lt :=
  fix_precision_loop eps i tmp with Qlt_le_dec (inject_Z i) eps => {
    | left _ := fix_precision_loop eps (i + 1) (tmp * (1 # 10));
    | right _ := tmp }.
Proof.
  assert (i < Qceiling eps); [|lia].
  destruct (Z_lt_le_dec i (Qceiling eps)) as [|Hle]; [assumption|].
  exfalso. apply (Qlt_irrefl eps).
  eapply Qle_lt_trans; [|eassumption].
  eapply Qle_trans; [apply Qle_ceiling|].
  rewrite <- Zle_Qle. exact Hle.
Qed.

Definition fix_precision (eps : Q) : Q :=
  if Qle_bool 1 eps then fix_precision_loop eps 0 1 else eps.

(** [main]: the exit status, and the calls made into the core with the
    output buffer they filled.  The image reader is taken to return. *)
Definition main (argv : list string) : Z * xstate Plan :=
  let argc := Z.of_nat (List.length argv) in
  let arg k := nth k argv EmptyString in
  let st0 := XState ∅ 0 [] in
  if negb ((4 <=? argc) && (argc <=? 9)) then (EXIT_FAILURE, st0) else
  let input_params := arg 1%nat in
  let filename_in := arg 2%nat in
  let order := if 4 <? argc then atoi (arg 4%nat) else 11 in
  let boundary := if 5 <? argc then arg 5%nat else "hsym"%string in
  let eps := if 6 <? argc then atof (arg 6%nat) else 6%Q in
  let larger := if 7 <? argc then atoi (arg 7%nat) else 0 in
  let geom := if 8 <? argc then Some (arg 8%nat) else None in
  if MAX_ORDER <? order then (EXIT_FAILURE, st0) else
  let eps := fix_precision eps in
  match read_ext boundary larger with
  | Exit status => (status, st0)
  | Return (ext, larger) =>
  let '(homo, nparams) := parse_doubles (uninit 9) 9 input_params in
  if negb (nparams =? 9) then (EXIT_FAILURE, st0) else
  let '(inp, w, h, c) := iio_read_image_double_split filename_in in
  match geom with
  | Some g =>
      let '(r, (x0, y0, wout, hout)) := parse_geometry 0 0 w h homo g in
      if negb (r =? 0) then (EXIT_FAILURE, st0) else
      (EXIT_SUCCESS,
       splinter_homography_geom st0 x0 y0 wout hout
         inp w h c order ext eps larger homo)
  | None =>
      (EXIT_SUCCESS,
       splinter_homography st0 inp w h c order ext eps larger homo)
  end
  end.

(** *** Notions the statements use *)

(** The evaluation at the output pixel [p = (i, j)]. *)
Definition eval_event (x0 y0 : Q) (iH : list Q) (plan : Plan) (p : Z * Z)
    : event Plan :=
  let q := apply_homography iH
             ((inject_Z (fst p) + x0)%Q, (inject_Z (snd p) + y0)%Q) in
  Evaluated plan (fst q) (snd q).

(** The value of channel [k] at the output pixel [(i, j)]. *)
Definition pixel_value (x0 y0 : Q) (iH : list Q) (plan : Plan) (i j k : Z) : Q :=
  let q := apply_homography iH ((inject_Z i + x0)%Q, (inject_Z j + y0)%Q) in
  splinter plan (fst q) (snd q) k.

(** The parameters [main] reads from the command line, lines 173-180. *)
Definition argc_of (argv : list string) : Z := Z.of_nat (List.length argv).
Definition arg (argv : list string) (k : nat) : string := nth k argv EmptyString.
Definition order_of (argv : list string) : Z :=
  if 4 <? argc_of argv then atoi (arg argv 4) else 11.
Definition boundary_of (argv : list string) : string :=
  if 5 <? argc_of argv then arg argv 5 else "hsym"%string.
Definition eps_of (argv : list string) : Q :=
  if 6 <? argc_of argv then atof (arg argv 6) else 6%Q.
Definition larger_of (argv : list string) : Z :=
  if 7 <? argc_of argv then atoi (arg argv 7) else 0.
Definition geom_of (argv : list string) : option string :=
  if 8 <? argc_of argv then Some (arg argv 8) else None.

Definition st0 : xstate Plan := XState ∅ 0 [].




(** The images of the four corners of the input image. *)
Definition corner_images (w h : Z) (H : list Q) : list (Q * Q) :=
  [ apply_homography H (0%Q, 0%Q);
    apply_homography H (inject_Z w, 0%Q);
    apply_homography H (0%Q, inject_Z h);
    apply_homography H (inject_Z w, inject_Z h) ].

(** The reads of [parse_doubles] along a list of numbers, each given
    with the width [%n] reports and followed by a character: the read
    at the offset [off] gives the first number, the read after its
    width the second, and so on. *)
Fixpoint reads_numbers (base : string) (off : Z) (l : list (Q * Z)) : Prop :=
  match l with
  | [] => True
  | (d, w) :: l' =>
      (exists c, sscanf_lg_c_n base off = ScanDoubleChar d c w)
      /\ reads_numbers base (off + w) l'
  end.

(** The offset reached after these reads. *)
Definition offset_after (off : Z) (l : list (Q * Z)) : Z :=
  fold_left (fun o p => o + snd p) l off.

(** The width [w] holds after these reads. *)
Definition width_after (w : Z) (l : list (Q * Z)) : Z :=
  List.last (map snd l) w.

(** ** Loops *)

Lemma for_iter_snoc {S : Type} n i (body : Z -> S -> S) s :
  for_iter (Datatypes.S n) i body s
  = body (i + Z.of_nat n) (for_iter n i body s).
Proof.
  revert i s. induction n as [|n IH]; intros i s.
  - simpl. now rewrite Z.add_0_r.
  - change (for_iter (Datatypes.S (Datatypes.S n)) i body s)
      with (for_iter (Datatypes.S n) (i + 1) body (body i s)).
    rewrite IH. simpl for_iter. f_equal. lia.
Qed.

Lemma for_int_empty {S : Type} lo hi (body : Z -> S -> S) s :
  hi <= lo -> for_int lo hi body s = s.
Proof.
  intros Hle. unfold for_int.
  replace (Z.to_nat (hi - lo)) with O by lia. reflexivity.
Qed.

Lemma for_int_snoc {S : Type} lo hi (body : Z -> S -> S) s :
  lo <= hi -> for_int lo (hi + 1) body s = body hi (for_int lo hi body s).
Proof.
  intros Hle. unfold for_int.
  replace (Z.to_nat (hi + 1 - lo)) with (Datatypes.S (Z.to_nat (hi - lo))) by lia.
  rewrite for_iter_snoc. f_equal. lia.
Qed.

(** Invariant rule of the [for] loop. *)
Lemma for_int_invariant {S : Type} (P : Z -> S -> Prop) lo hi
    (body : Z -> S -> S) s :
  lo <= hi ->
  P lo s ->
  (forall i t, lo <= i < hi -> P i t -> P (i + 1) (body i t)) ->
  P hi (for_int lo hi body s).
Proof.
  intros Hle H0 Hstep.
  replace hi with (lo + Z.of_nat (Z.to_nat (hi - lo))) by lia.
  assert (Hn : (Z.to_nat (hi - lo) <= Z.to_nat (hi - lo))%nat) by lia.
  revert Hn. generalize (Z.to_nat (hi - lo)) at 1 3 4 as n.
  induction n as [|n IH]; intros Hn.
  - rewrite Z.add_0_r, for_int_empty by lia. exact H0.
  - replace (lo + Z.of_nat (Datatypes.S n)) with (lo + Z.of_nat n + 1) by lia.
    rewrite for_int_snoc by lia. apply Hstep; [lia|]. apply IH. lia.
Qed.

(** The same for a property that does not mention the counter. *)
Lemma for_int_preserves {S : Type} (P : S -> Prop) lo hi
    (body : Z -> S -> S) s :
  P s ->
  (forall i t, lo <= i < hi -> P t -> P (body i t)) ->
  P (for_int lo hi body s).
Proof.
  intros H0 Hstep. destruct (Z_le_gt_dec lo hi) as [Hle|Hgt].
  - apply (for_int_invariant (fun _ => P)); auto.
  - rewrite for_int_empty by lia. exact H0.
Qed.

Lemma seqZ_snoc (m n : Z) : 0 <= n -> seqZ m (n + 1) = seqZ m n ++ [m + n].
Proof.
  intros Hn. rewrite seqZ_app by lia. f_equal.
Qed.

(** ** The calls made by [splinter_homography_geom] *)

Lemma channel_loop_keeps c wout hout (outp : Z -> Q) st :
  let st' := for_int 0 c (fun k t => store (k * wout * hout) (outp k) t) st in
  out st' = out st /\ trace st' = trace st.
Proof.
  simpl. apply (for_int_preserves
    (fun t => out t = out st /\ trace t = trace st)); [split; reflexivity|].
  intros k t _ [Ho Ht]. split; assumption.
Qed.

Lemma pixel_body_trace x0 y0 wout hout c iH plan j i st :
  trace (pixel_body x0 wout hout c iH plan (inject_Z j + y0)%Q i st)
  = trace st ++ [eval_event x0 y0 iH plan (i, j)].
Proof.
  unfold pixel_body. cbv zeta. unfold incr_out. cbn [trace].
  match goal with |- context [for_int 0 c ?b ?s] =>
    destruct (channel_loop_keeps c wout hout
                (splinter plan
                   (fst (apply_homography iH
                           ((inject_Z i + x0)%Q, (inject_Z j + y0)%Q)))
                   (snd (apply_homography iH
                           ((inject_Z i + x0)%Q, (inject_Z j + y0)%Q)))) s)
      as [_ Ht] end.
  cbv zeta in Ht. rewrite Ht. reflexivity.
Qed.

Lemma row_body_trace x0 y0 wout hout c iH plan j st :
  trace (row_body x0 y0 wout hout c iH plan j st)
  = trace st
    ++ map (eval_event x0 y0 iH plan) (map (fun i => (i, j)) (seqZ 0 wout)).
Proof.
  unfold row_body. cbv zeta.
  destruct (Z_le_gt_dec 0 wout) as [Hle|Hgt].
  - apply (for_int_invariant
      (fun i t => trace t = trace st
         ++ map (eval_event x0 y0 iH plan) (map (fun i => (i, j)) (seqZ 0 i))));
      [assumption| now rewrite app_nil_r |].
    intros i t Hi Ht. rewrite pixel_body_trace, Ht, seqZ_snoc by lia.
    rewrite !map_app, <- app_assoc. reflexivity.
  - rewrite for_int_empty by lia.
    replace (seqZ 0 wout) with (@nil Z); [now rewrite app_nil_r|].
    symmetry. apply seqZ_nil. lia.
Qed.

Lemma splinter_homography_geom_trace st x0 y0 wout hout inp w h c n
    boundary eps larger H :
  let plan := splinter_plan inp w h c n boundary eps larger in
  trace (splinter_homography_geom st x0 y0 wout hout inp w h c n
           boundary eps larger H)
  = trace st
    ++ [PlanBuilt inp w h c n boundary eps larger]
    ++ map (eval_event x0 y0 (invert_homography H) plan) (pixels wout hout)
    ++ [PlanDestroyed plan].
Proof.
  intros plan. unfold splinter_homography_geom. cbv zeta. fold plan.
  unfold log at 1. cbn [trace]. rewrite !app_assoc. f_equal.
  rewrite <- app_assoc.
  destruct (Z_le_gt_dec 0 hout) as [Hle|Hgt].
  - apply (for_int_invariant
      (fun j t => trace t = trace st
         ++ [PlanBuilt inp w h c n boundary eps larger]
         ++ map (eval_event x0 y0 (invert_homography H) plan) (pixels wout j)));
      [assumption| reflexivity |].
    intros j t Hj Ht. rewrite row_body_trace, Ht. unfold pixels.
    rewrite seqZ_snoc by lia. rewrite flat_map_app, map_app. simpl flat_map.
    rewrite app_nil_r, Z.add_0_l, <- !app_assoc. reflexivity.
  - rewrite for_int_empty by lia. unfold pixels.
    replace (seqZ 0 hout) with (@nil Z); [reflexivity|].
    symmetry. apply seqZ_nil. lia.
Qed.

Lemma pixels_spec wout hout i j :
  In (i, j) (pixels wout hout) <-> 0 <= i < wout /\ 0 <= j < hout.
Proof.
  unfold pixels. rewrite in_flat_map. split.
  - intros (j' & Hj & Hin). apply in_map_iff in Hin as (i' & Heq & Hi).
    inversion Heq; subst.
    apply list_elem_of_In, elem_of_seqZ in Hj.
    apply list_elem_of_In, elem_of_seqZ in Hi. lia.
  - intros [Hi Hj]. exists j. split.
    + apply list_elem_of_In, elem_of_seqZ. lia.
    + apply in_map_iff. exists i. split; [reflexivity|].
      apply list_elem_of_In, elem_of_seqZ. lia.
Qed.

Lemma pixels_NoDup wout hout : NoDup (pixels wout hout).
Proof.
  unfold pixels. generalize (NoDup_seqZ 0 hout).
  induction (seqZ 0 hout) as [|j l IH]; intros Hnd; simpl.
  - constructor.
  - apply NoDup_cons in Hnd as [Hj Hl]. apply NoDup_app. split; [|split].
    + apply NoDup_fmap_2; [|apply NoDup_seqZ].
      intros a b Hab. now inversion Hab.
    + intros p Hp Hq. apply list_elem_of_In, in_map_iff in Hp as (i & <- & _).
      apply list_elem_of_In, in_flat_map in Hq as (j' & Hj' & Hin).
      apply in_map_iff in Hin as (i' & Heq & _). inversion Heq; subst.
      apply Hj. now apply list_elem_of_In.
    + apply IH, Hl.
Qed.

(** ** The cells written by [splinter_homography_geom] *)

Lemma planar_index_inj N t1 k1 t2 k2 :
  0 <= t1 < N -> 0 <= t2 < N ->
  k1 * N + t1 = k2 * N + t2 -> k1 = k2 /\ t1 = t2.
Proof.
  intros H1 H2 Heq.
  assert (k1 = k2) by nia. subst. split; [reflexivity|lia].
Qed.

Lemma row_major_bound wout hout i j :
  0 <= i < wout -> 0 <= j < hout -> 0 <= j * wout + i < wout * hout.
Proof. intros Hi Hj. nia. Qed.

Lemma channel_loop_mem c wout hout (outp : Z -> Q) st :
  0 < wout * hout ->
  let st' := for_int 0 c (fun k t => store (k * wout * hout) (outp k) t) st in
  (forall k, 0 <= k < c ->
     mem st' !! (out st + k * wout * hout) = Some (outp k))
  /\ (forall a, (forall k, 0 <= k < c -> a <> out st + k * wout * hout) ->
        mem st' !! a = mem st !! a).
Proof.
  intros HN. cbv zeta.
  destruct (Z_le_gt_dec 0 c) as [Hle|Hgt].
  2:{ rewrite for_int_empty by lia. split; [intros; lia|reflexivity]. }
  assert (Hinv : let t := for_int 0 c
                   (fun k t => store (k * wout * hout) (outp k) t) st in
    out t = out st
    /\ (forall k, 0 <= k < c ->
          mem t !! (out st + k * wout * hout) = Some (outp k))
    /\ (forall a, (forall k, 0 <= k < c -> a <> out st + k * wout * hout) ->
          mem t !! a = mem st !! a)).
  { apply (for_int_invariant (fun n t =>
      out t = out st
      /\ (forall k, 0 <= k < n ->
            mem t !! (out st + k * wout * hout) = Some (outp k))
      /\ (forall a, (forall k, 0 <= k < n -> a <> out st + k * wout * hout) ->
            mem t !! a = mem st !! a))); [assumption| |].
    - split; [reflexivity|]. split; [intros; lia|reflexivity].
    - intros k t Hk (Ho & Hset & Hframe). unfold store. cbn [mem out].
      rewrite Ho. split; [reflexivity|]. split.
      + intros k' Hk'. destruct (Z.eq_dec k' k) as [->|Hne].
        * apply lookup_insert_eq.
        * rewrite lookup_insert_ne; [apply Hset; lia|].
          intros Heq. apply Hne.
          assert (k * (wout * hout) = k' * (wout * hout)) by lia. nia.
      + intros a Ha. rewrite lookup_insert_ne.
        * apply Hframe. intros k' Hk'. apply Ha. lia.
        * intros Heq. apply (Ha k); [lia|]. now symmetry. }
  destruct Hinv as (_ & Hset & Hframe). split; assumption.
Qed.

Lemma pixel_body_out x0 wout hout c iH plan p1 i st :
  out (pixel_body x0 wout hout c iH plan p1 i st) = out st + 1.
Proof.
  unfold pixel_body. cbv zeta. unfold incr_out. cbn [out].
  match goal with |- context [for_int 0 c ?b ?s] =>
    pose proof (channel_loop_keeps c wout hout
      (splinter plan (fst (apply_homography iH ((inject_Z i + x0)%Q, p1)))
                     (snd (apply_homography iH ((inject_Z i + x0)%Q, p1)))) s)
      as Hk end.
  cbv zeta in Hk. destruct Hk as [Ho _]. rewrite Ho. reflexivity.
Qed.

Lemma pixel_body_mem x0 y0 wout hout c iH plan j i st :
  0 < wout * hout ->
  let st' := pixel_body x0 wout hout c iH plan (inject_Z j + y0)%Q i st in
  (forall k, 0 <= k < c ->
     mem st' !! (out st + k * wout * hout)
     = Some (pixel_value x0 y0 iH plan i j k))
  /\ (forall a, (forall k, 0 <= k < c -> a <> out st + k * wout * hout) ->
        mem st' !! a = mem st !! a).
Proof.
  intros HN. unfold pixel_body. cbv zeta. unfold incr_out. cbn [mem].
  match goal with |- context [for_int 0 c ?b ?s] =>
    pose proof (channel_loop_mem c wout hout
      (pixel_value x0 y0 iH plan i j) s HN) as Hm end.
  exact Hm.
Qed.

Lemma row_body_mem x0 y0 wout hout c iH plan j st :
  0 <= j < hout ->
  let st' := row_body x0 y0 wout hout c iH plan j st in
  out st' = out st + Z.max 0 wout
  /\ (forall i k, 0 <= i < wout -> 0 <= k < c ->
        mem st' !! (out st + (k * wout * hout + i))
        = Some (pixel_value x0 y0 iH plan i j k))
  /\ (forall a,
        (forall i k, 0 <= i < wout -> 0 <= k < c ->
           a <> out st + (k * wout * hout + i)) ->
        mem st' !! a = mem st !! a).
Proof.
  intros Hj. unfold row_body. cbv zeta.
  destruct (Z_le_gt_dec wout 0) as [Hle|Hgt].
  { rewrite for_int_empty by lia.
    split; [lia|]. split; [intros; lia|reflexivity]. }
  assert (HN : 0 < wout * hout) by nia.
  replace (Z.max 0 wout) with wout by lia.
  apply (for_int_invariant (fun n t =>
    out t = out st + n
    /\ (forall i k, 0 <= i < n -> 0 <= k < c ->
          mem t !! (out st + (k * wout * hout + i))
          = Some (pixel_value x0 y0 iH plan i j k))
    /\ (forall a,
          (forall i k, 0 <= i < n -> 0 <= k < c ->
             a <> out st + (k * wout * hout + i)) ->
          mem t !! a = mem st !! a))); [lia| |].
  - split; [lia|]. split; [intros; lia|reflexivity].
  - intros i t Hi (Ho & Hset & Hframe).
    destruct (pixel_body_mem x0 y0 wout hout c iH plan j i t HN)
      as [Hnew Hold].
    split; [rewrite pixel_body_out; lia|]. split.
    + intros i' k Hi' Hk. destruct (Z.eq_dec i' i) as [->|Hne].
      * replace (out st + (k * wout * hout + i))
          with (out t + k * wout * hout) by lia.
        apply Hnew, Hk.
      * rewrite Hold; [apply Hset; lia|].
        intros k' Hk' Heq. apply Hne.
        assert (Hw : wout <= wout * hout) by nia.
        destruct (planar_index_inj (wout * hout) i' k i k') as [_ ?];
          [lia|lia|lia|assumption].
    + intros a Ha. rewrite Hold.
      * apply Hframe. intros i' k Hi' Hk. apply Ha; lia.
      * intros k Hk Heq. apply (Ha i k); [lia|lia|]. lia.
Qed.

Lemma rows_mem x0 y0 wout hout c iH plan st :
  let st' := for_int 0 hout (row_body x0 y0 wout hout c iH plan) st in
  (forall i j k, 0 <= i < wout -> 0 <= j < hout -> 0 <= k < c ->
     mem st' !! (out st + (k * wout * hout + j * wout + i))
     = Some (pixel_value x0 y0 iH plan i j k))
  /\ (forall a,
        (forall i j k, 0 <= i < wout -> 0 <= j < hout -> 0 <= k < c ->
           a <> out st + (k * wout * hout + j * wout + i)) ->
        mem st' !! a = mem st !! a).
Proof.
  cbv zeta. destruct (Z_le_gt_dec hout 0) as [Hle|Hgt].
  { rewrite for_int_empty by lia. split; [intros; lia|reflexivity]. }
  assert (Hinv : let t := for_int 0 hout (row_body x0 y0 wout hout c iH plan) st in
    out t = out st + hout * Z.max 0 wout
    /\ (forall i j k, 0 <= i < wout -> 0 <= j < hout -> 0 <= k < c ->
          mem t !! (out st + (k * wout * hout + j * wout + i))
          = Some (pixel_value x0 y0 iH plan i j k))
    /\ (forall a,
          (forall i j k, 0 <= i < wout -> 0 <= j < hout -> 0 <= k < c ->
             a <> out st + (k * wout * hout + j * wout + i)) ->
          mem t !! a = mem st !! a)).
  { apply (for_int_invariant (fun n t =>
      out t = out st + n * Z.max 0 wout
      /\ (forall i j k, 0 <= i < wout -> 0 <= j < n -> 0 <= k < c ->
            mem t !! (out st + (k * wout * hout + j * wout + i))
            = Some (pixel_value x0 y0 iH plan i j k))
      /\ (forall a,
            (forall i j k, 0 <= i < wout -> 0 <= j < n -> 0 <= k < c ->
               a <> out st + (k * wout * hout + j * wout + i)) ->
            mem t !! a = mem st !! a))); [lia| |].
    - split; [lia|]. split; [intros; lia|reflexivity].
    - intros j t Hj (Ho & Hset & Hframe).
      destruct (row_body_mem x0 y0 wout hout c iH plan j t Hj)
        as (Ho' & Hnew & Hold).
      split; [rewrite Ho', Ho; lia|]. split.
      + intros i j' k Hi Hj' Hk. destruct (Z.eq_dec j' j) as [->|Hne].
        * replace (out st + (k * wout * hout + j * wout + i))
            with (out t + (k * wout * hout + i)) by lia.
          apply Hnew; assumption.
        * rewrite Hold; [apply Hset; lia|].
          intros i' k' Hi' Hk' Heq. apply Hne.
          pose proof (row_major_bound wout hout i j' Hi ltac:(lia)) as B1.
          pose proof (row_major_bound wout hout i' j Hi' Hj) as B2.
          destruct (planar_index_inj (wout * hout)
                      (j' * wout + i) k (j * wout + i') k') as [_ Ht];
            [lia|lia|lia|]. nia.
      + intros a Ha. rewrite Hold.
        * apply Hframe. intros i j' k Hi Hj' Hk. apply Ha; lia.
        * intros i k Hi Hk Heq. apply (Ha i j k); [lia|lia|lia|lia]. }
  destruct Hinv as (_ & Hset & Hframe). split; assumption.
Qed.

(** ** Strings *)

Lemma char_code_inj c1 c2 : char_code c1 = char_code c2 -> c1 = c2.
Proof.
  unfold char_code. intros Heq. apply Nat2Z.inj in Heq.
  rewrite <- (ascii_nat_embedding c1), <- (ascii_nat_embedding c2).
  now rewrite Heq.
Qed.

(** [strncmp(s1, s2, strlen(s1)) == 0] says that [s1] is a prefix of [s2]. *)
Lemma strncmp_prefix s1 s2 :
  strncmp s1 s2 (strlen s1) = 0 <-> String.prefix s1 s2 = true.
Proof.
  revert s2. induction s1 as [|c1 r1 IH]; intros s2.
  - simpl. destruct s2; split; reflexivity.
  - destruct s2 as [|c2 r2]; simpl.
    + split; discriminate.
    + destruct (Ascii.eqb_spec c1 c2) as [->|Hne].
      * destruct (ascii_dec c2 c2) as [_|Hn]; [apply IH|contradiction].
      * destruct (ascii_dec c1 c2) as [He|_]; [contradiction|].
        destruct (char_code c1 <? char_code c2); split; discriminate.
Qed.

Lemma strncmp_prefix_b s1 s2 :
  (strncmp s1 s2 (strlen s1) =? 0) = String.prefix s1 s2.
Proof.
  destruct (String.prefix s1 s2) eqn:Hp.
  - apply Z.eqb_eq, strncmp_prefix, Hp.
  - apply Z.eqb_neq. intros H0. apply strncmp_prefix in H0. congruence.
Qed.

(** ** [read_ext] *)

Lemma read_ext_first_boundary boundary larger :
  read_ext boundary larger
  = match first_boundary boundary with
    | Some BOUNDARY_CONSTANT =>
        Return (BOUNDARY_CONSTANT, if larger =? 0 then 1 else larger)
    | Some ext => Return (ext, larger)
    | None => Exit EXIT_FAILURE
    end.
Proof.
  unfold read_ext, first_boundary, boundary_names. rewrite !strncmp_prefix_b.
  cbn [find fst snd option_map].
  destruct (String.prefix boundary "constant"); [reflexivity|].
  destruct (String.prefix boundary "periodic"); [reflexivity|].
  destruct (String.prefix boundary "hsymmetric"); [reflexivity|].
  destruct (String.prefix boundary "wsymmetric"); reflexivity.
Qed.

Lemma first_boundary_None b :
  first_boundary b = None
  <-> forall name ext, In (name, ext) boundary_names -> String.prefix b name = false.
Proof.
  unfold first_boundary. split.
  - intros Hnone name ext Hin.
    destruct (find _ boundary_names) as [p|] eqn:Hf; [discriminate|].
    exact (find_none _ _ Hf (name, ext) Hin).
  - intros Hall.
    destruct (find _ boundary_names) as [p|] eqn:Hf; [|reflexivity].
    apply find_some in Hf as [Hin Hp]. destruct p as [name ext].
    cbn [fst] in Hp. rewrite (Hall name ext Hin) in Hp. discriminate.
Qed.

Lemma read_ext_larger boundary larger ext larger' :
  read_ext boundary larger = Return (ext, larger') ->
  (ext = BOUNDARY_CONSTANT ->
     larger' <> 0 /\ (larger = 0 -> larger' = 1)
     /\ (larger <> 0 -> larger' = larger))
  /\ (ext <> BOUNDARY_CONSTANT -> larger' = larger).
Proof.
  unfold read_ext. intros Hr.
  repeat match type of Hr with
  | (if ?b then _ else _) = _ => destruct b
  end; inversion Hr; subst; clear Hr.
  1:{ split; [|congruence]. intros _.
      destruct (Z.eqb_spec larger 0); lia. }
  all: split; [discriminate|reflexivity].
Qed.

(** ** [parse_geometry] *)

Lemma transform_corners_eq w h H :
  let P0 := apply_homography H (inject_Z 0, inject_Z 0) in
  let P1 := apply_homography H (inject_Z w, inject_Z 0) in
  let P2 := apply_homography H (inject_Z 0, inject_Z h) in
  let P3 := apply_homography H (inject_Z w, inject_Z h) in
  transform_corners w h H
  = [fst P0; snd P0; fst P1; snd P1; fst P2; snd P2; fst P3; snd P3].
Proof.
  cbv zeta. unfold transform_corners, for_int, aset, uninit.
  cbv -[Z.mul inject_Z]. rewrite !Z.mul_1_l.
  change (0 * w) with 0. change (0 * h) with 0. reflexivity.
Qed.

(** One more value [v] seen by the bounds [m] and [M] of [l]. *)
Lemma bounds_step m M l v :
  is_min m l -> is_max M l ->
  exists m' M',
    (if Qlt_le_dec v m then (v, M)
     else if Qlt_le_dec M v then (m, v) else (m, M)) = (m', M')
    /\ is_min m' (l ++ [v]) /\ is_max M' (l ++ [v]).
Proof. clear.
  intros [Hm Hmin] [HM Hmax].
  assert (HmM : (m <= M)%Q) by (apply Hmax, Hm).
  destruct (Qlt_le_dec v m) as [Hlt|Hge];
    [|destruct (Qlt_le_dec M v) as [Hlt|Hle]];
    eexists; eexists; (split; [reflexivity|]); unfold is_min, is_max;
    split; split.
  all: try (apply in_or_app; simpl; tauto).
  all: intros u Hu; apply in_app_or in Hu as [Hu|[<-|[]]].
  all: try apply Qle_refl.
  all: try (specialize (Hmin _ Hu)); try (specialize (Hmax _ Hu)).
  all: Lqa.lra.
Qed.

Lemma bb_update_x hc i mx my Mx My l :
  is_min mx l -> is_max Mx l ->
  exists mx' Mx',
    bb_update hc 0 i [mx; my; Mx; My] = [mx'; my; Mx'; My]
    /\ is_min mx' (l ++ [aget hc (2 * i)])
    /\ is_max Mx' (l ++ [aget hc (2 * i)]).
Proof.
  intros Hmin Hmax.
  destruct (bounds_step mx Mx l (aget hc (2 * i)) Hmin Hmax)
    as (m' & M' & Heq & Hmin' & Hmax').
  exists m', M'. split; [|split; assumption].
  unfold bb_update. rewrite Z.add_0_r.
  change (aget [mx; my; Mx; My] 0) with mx.
  change (aget [mx; my; Mx; My] (0 + 2)) with Mx.
  destruct (Qlt_le_dec (aget hc (2 * i)) mx);
    [|destruct (Qlt_le_dec Mx (aget hc (2 * i)))];
    inversion Heq; subst; reflexivity.
Qed.

Lemma bb_update_y hc i mx my Mx My l :
  is_min my l -> is_max My l ->
  exists my' My',
    bb_update hc 1 i [mx; my; Mx; My] = [mx; my'; Mx; My']
    /\ is_min my' (l ++ [aget hc (2 * i + 1)])
    /\ is_max My' (l ++ [aget hc (2 * i + 1)]).
Proof.
  intros Hmin Hmax.
  destruct (bounds_step my My l (aget hc (2 * i + 1)) Hmin Hmax)
    as (m' & M' & Heq & Hmin' & Hmax').
  exists m', M'. split; [|split; assumption].
  unfold bb_update.
  change (aget [mx; my; Mx; My] 1) with my.
  change (aget [mx; my; Mx; My] (1 + 2)) with My.
  destruct (Qlt_le_dec (aget hc (2 * i + 1)) my);
    [|destruct (Qlt_le_dec My (aget hc (2 * i + 1)))];
    inversion Heq; subst; reflexivity.
Qed.

Lemma is_min_singleton a : is_min a [a].
Proof.
  split; [now left|]. intros v [<-|[]]. apply Qle_refl.
Qed.

Lemma is_max_singleton a : is_max a [a].
Proof.
  split; [now left|]. intros v [<-|[]]. apply Qle_refl.
Qed.

Lemma bounding_box_eq a0 b0 a1 b1 a2 b2 a3 b3 :
  exists minx miny maxx maxy,
    bounding_box [a0; b0; a1; b1; a2; b2; a3; b3] = [minx; miny; maxx; maxy]
    /\ is_min minx [a0; a1; a2; a3] /\ is_max maxx [a0; a1; a2; a3]
    /\ is_min miny [b0; b1; b2; b3] /\ is_max maxy [b0; b1; b2; b3].
Proof.
  set (hc := [a0; b0; a1; b1; a2; b2; a3; b3]).
  unfold bounding_box, for_int.
  change (Z.to_nat (2 - 0)) with 2%nat. change (Z.to_nat (4 - 1)) with 3%nat.
  cbn [for_iter].
  change (aget hc 0) with a0. change (aget hc 1) with b0.
  change (0 + 1) with 1. change (1 + 1) with 2. change (2 + 1) with 3.
  destruct (bb_update_x hc 1 a0 b0 a0 b0 [a0]
              (is_min_singleton a0) (is_max_singleton a0))
    as (m1 & M1 & -> & Hm1 & HM1).
  destruct (bb_update_x hc 2 m1 b0 M1 b0 _ Hm1 HM1)
    as (m2 & M2 & -> & Hm2 & HM2).
  destruct (bb_update_x hc 3 m2 b0 M2 b0 _ Hm2 HM2)
    as (m3 & M3 & -> & Hm3 & HM3).
  destruct (bb_update_y hc 1 m3 b0 M3 b0 [b0]
              (is_min_singleton b0) (is_max_singleton b0))
    as (n1 & N1 & -> & Hn1 & HN1).
  destruct (bb_update_y hc 2 m3 n1 M3 N1 _ Hn1 HN1)
    as (n2 & N2 & -> & Hn2 & HN2).
  destruct (bb_update_y hc 3 m3 n2 M3 N2 _ Hn2 HN2)
    as (n3 & N3 & -> & Hn3 & HN3).
  exists m3, n3, M3, N3. split; [reflexivity|].
  repeat split; first [apply Hm3 | apply HM3 | apply Hn3 | apply HN3].
Qed.

Lemma prefix_auto_not_center g :
  g <> EmptyString -> String.prefix g "auto" = true ->
  String.prefix g "center" = false.
Proof.
  intros Hne Hp. destruct g as [|c r]; [contradiction|].
  simpl in Hp |- *. destruct (ascii_dec c "a") as [->|]; [|discriminate].
  reflexivity.
Qed.

(** ** [fix_precision] *)

Lemma lt_ceiling i eps : (inject_Z i < eps)%Q -> i < Qceiling eps.
Proof.
  intros Hlt. destruct (Z_lt_le_dec i (Qceiling eps)) as [|Hle]; [assumption|].
  exfalso. pose proof (Qle_ceiling eps) as Hc.
  rewrite Zle_Qle in Hle. Lqa.lra.
Qed.

Lemma ceiling_le i eps : (eps <= inject_Z i)%Q -> Qceiling eps <= i.
Proof.
  intros Hle. rewrite <- (Qceiling_Z i). now apply Qceiling_resp_le.
Qed.

Lemma fix_precision_loop_power eps i tmp :
  i <= Qceiling eps ->
  (fix_precision_loop eps i tmp == tmp * (1 # 10) ^ (Qceiling eps - i))%Q.
Proof.
  funelim (fix_precision_loop eps i tmp); intros Hi.
  - assert (Hi' : i + 1 <= Qceiling eps) by
      (match goal with Hq : (inject_Z _ < _)%Q |- _ =>
         pose proof (lt_ceiling _ _ Hq) end; lia).
    specialize (H Hi'). rewrite H.
    replace (Qceiling eps - i) with (1 + (Qceiling eps - (i + 1))) by lia.
    rewrite Qpower_plus by discriminate. change ((1 # 10) ^ 1)%Q with (1 # 10)%Q.
    ring.
  - match goal with Hq : (_ <= inject_Z _)%Q |- _ =>
      pose proof (ceiling_le _ _ Hq) end.
    replace (Qceiling eps - i) with 0 by lia.
    change ((1 # 10) ^ 0)%Q with 1%Q. ring.
Qed.

Lemma fix_precision_ge eps :
  (1 <= eps)%Q -> (fix_precision eps == (1 # 10) ^ Qceiling eps)%Q.
Proof.
  intros Hge. unfold fix_precision.
  apply Qle_bool_iff in Hge as Hb. rewrite Hb.
  rewrite fix_precision_loop_power.
  - rewrite Z.sub_0_r. ring.
  - change 0 with (Qceiling 0). apply Qceiling_resp_le. Lqa.lra.
Qed.

Lemma fix_precision_lt eps : (eps < 1)%Q -> fix_precision eps = eps.
Proof.
  intros Hlt. unfold fix_precision.
  destruct (Qle_bool 1 eps) eqn:Hb; [|reflexivity].
  apply Qle_bool_iff in Hb. Lqa.lra.
Qed.

Lemma Rpower_10_inj a b : Rpower 10 a = Rpower 10 b -> a = b.
Proof.
  unfold Rpower. intros Heq. apply exp_inv in Heq.
  assert (Hln : (0 < ln 10)%R).
  { rewrite <- ln_1. apply ln_increasing; Lra.lra. }
  apply (Rmult_eq_reg_r (ln 10)); [exact Heq|Lra.lra].
Qed.

Lemma Q2R_inject_Z z : Q2R (inject_Z z) = IZR z.
Proof.
  unfold Q2R, inject_Z. cbn [Qnum Qden]. rewrite RMicromega.Rinv_1. reflexivity.
Qed.

Lemma Q2R_tenth_power n :
  Q2R ((1 # 10) ^ Z.of_nat n) = Rpower 10 (- IZR (Z.of_nat n)).
Proof.
  rewrite Rpower_Ropp, <- INR_IZR_INZ, Rpower_pow by Lra.lra.
  induction n as [|n IH].
  - simpl. unfold Q2R. simpl. Lra.lra.
  - rewrite Nat2Z.inj_succ. unfold Z.succ.
    rewrite (Qeq_eqR _ _ (Qpower_plus (1 # 10) (Z.of_nat n) 1 ltac:(discriminate))).
    rewrite Q2R_mult, IH. change ((1 # 10) ^ 1)%Q with (1 # 10)%Q.
    replace (Q2R (1 # 10)) with (/ 10)%R by (unfold Q2R; simpl; Lra.lra).
    simpl pow. rewrite Rinv_mult. Lra.lra.
Qed.

(** ** [main] *)

Lemma read_ext_exit boundary larger status :
  read_ext boundary larger = Exit status -> status = EXIT_FAILURE.
Proof.
  unfold read_ext. intros Hr.
  repeat match type of Hr with
  | (if ?b then _ else _) = _ => destruct b
  end; inversion Hr; reflexivity.
Qed.


(** Either [main] fails before it calls the core, or every check has
    passed and it runs one transform. *)
Lemma main_cases argv :
  main argv = (EXIT_FAILURE, st0)
  \/ exists ext larger homo inp w h c x0 y0 wout hout,
       4 <= argc_of argv <= 9
       /\ order_of argv <= MAX_ORDER
       /\ read_ext (boundary_of argv) (larger_of argv) = Return (ext, larger)
       /\ parse_doubles (uninit 9) 9 (arg argv 1) = (homo, 9)
       /\ iio_read_image_double_split (arg argv 2) = (inp, w, h, c)
       /\ match geom_of argv with
          | Some g => parse_geometry 0 0 w h homo g = (0, (x0, y0, wout, hout))
          | None => (x0, y0, wout, hout) = (0%Q, 0%Q, w, h)
          end
       /\ main argv
          = (EXIT_SUCCESS,
             splinter_homography_geom st0 x0 y0 wout hout inp w h c
               (order_of argv) ext (fix_precision (eps_of argv)) larger homo).
Proof.
  unfold order_of, boundary_of, eps_of, larger_of, geom_of, arg, main.
  cbv zeta. fold (argc_of argv). fold st0.
  destruct ((4 <=? argc_of argv) && (argc_of argv <=? 9)) eqn:Hargc;
    cbn [negb]; [|now left].
  destruct (MAX_ORDER <? _) eqn:Hord; [now left|].
  destruct (read_ext _ _) as [[ext larger]|status] eqn:Hext.
  2:{ left. now rewrite (read_ext_exit _ _ _ Hext). }
  destruct (parse_doubles (uninit 9) 9 _) as [homo nparams] eqn:Hpd.
  destruct (nparams =? 9) eqn:Hn; cbn [negb]; [|now left].
  apply Z.eqb_eq in Hn. subst nparams.
  destruct (iio_read_image_double_split _) as [[[inp w] h] c] eqn:Hrd.
  apply andb_true_iff in Hargc as [H4 H9].
  apply Z.leb_le in H4, H9. apply Z.ltb_ge in Hord.
  destruct (8 <? argc_of argv) eqn:Hg.
  - destruct (parse_geometry 0 0 w h homo _) as [r [[[x0 y0] wout] hout]] eqn:Hpg.
    destruct (r =? 0) eqn:Hr; cbn [negb]; [|now left].
    apply Z.eqb_eq in Hr. subst r. right.
    exists ext, larger, homo, inp, w, h, c, x0, y0, wout, hout.
    repeat split; try assumption.
  - right. exists ext, larger, homo, inp, w, h, c, 0%Q, 0%Q, w, h.
    repeat split; assumption.
Qed.



Lemma in_trace_plan_built st x0 y0 wout hout inp w h c n boundary eps larger H
    inp' w' h' c' n' boundary' eps' larger' :
  trace st = [] ->
  In (PlanBuilt inp' w' h' c' n' boundary' eps' larger')
     (trace (splinter_homography_geom st x0 y0 wout hout inp w h c n
               boundary eps larger H)) ->
  PlanBuilt (Plan := Plan) inp' w' h' c' n' boundary' eps' larger'
  = PlanBuilt inp w h c n boundary eps larger.
Proof.
  intros Hnil Hin. rewrite splinter_homography_geom_trace, Hnil in Hin.
  cbn [app] in Hin. destruct Hin as [Heq|Hin]; [now symmetry|].
  apply in_app_or in Hin as [Hin|[Heq|[]]]; [|discriminate].
  apply in_map_iff in Hin as (p & Heq & _). discriminate.
Qed.

(** The upper bound on the order is checked before the core is called. *)
Lemma main_order_upper_bound argv inp w h c n boundary eps larger :
  In (PlanBuilt inp w h c n boundary eps larger) (trace (snd (main argv))) ->
  n <= MAX_ORDER.
Proof.
  intros Hin. destruct (main_cases argv) as [Hf|Hs].
  - rewrite Hf in Hin. destruct Hin.
  - destruct Hs as (ext & l & homo & inp0 & w0 & h0 & c0 & x0 & y0 & wout
                    & hout & _ & Hord & _ & _ & _ & _ & Hm).
    rewrite Hm in Hin. cbn [snd] in Hin.
    apply in_trace_plan_built in Hin; [|reflexivity].
    inversion Hin; subst. exact Hord.
Qed.

(** No lower bound is checked: a run that succeeds builds its plan with
    the order read from the command line, whatever its sign. *)
Lemma main_plan_order argv :
  fst (main argv) = EXIT_SUCCESS ->
  exists inp w h c ext eps larger,
    hd_error (trace (snd (main argv)))
    = Some (PlanBuilt inp w h c (order_of argv) ext eps larger).
Proof.
  intros Hok. destruct (main_cases argv) as [Hf|Hs].
  - rewrite Hf in Hok. discriminate.
  - destruct Hs as (ext & l & homo & inp & w & h & c & x0 & y0 & wout
                    & hout & _ & _ & _ & _ & _ & _ & Hm).
    exists inp, w, h, c, ext, (fix_precision (eps_of argv)), l.
    rewrite Hm. cbn [snd]. rewrite splinter_homography_geom_trace.
    reflexivity.
Qed.

(** Nothing but the cells of the planes is written. *)
Lemma splinter_homography_geom_frame st x0 y0 wout hout inp w h c n
    boundary eps larger H a :
  (forall i j k, 0 <= i < wout -> 0 <= j < hout -> 0 <= k < c ->
     a <> out st + (k * wout * hout + j * wout + i)) ->
  mem (splinter_homography_geom st x0 y0 wout hout inp w h c n
         boundary eps larger H) !! a = mem st !! a.
Proof.
  intros Ha. unfold splinter_homography_geom. cbv zeta.
  unfold log at 1. cbn [mem].
  match goal with |- mem (for_int 0 hout ?b ?s) !! a = _ =>
    destruct (rows_mem x0 y0 wout hout c (invert_homography H)
                (splinter_plan inp w h c n boundary eps larger) s)
      as [_ Hframe] end.
  cbv zeta in Hframe. rewrite Hframe; [reflexivity|exact Ha].
Qed.

(** ** The statements of the specification *)

(** C1. For every output area [(x0, y0, wout, hout)] and homography
    [H], [splinter_homography_geom] builds one plan from the input
    image, then evaluates it once for each output pixel [(i, j)],
    [0 <= i < wout] and [0 <= j < hout], at the image of
    [(i + x0, j + y0)] by the inverse of [H], and last destroys the
    plan: these are its calls into the core, in this order, and the
    list of pixels holds each pixel of the area once. *)
Theorem splinter_homography_geom_calls st x0 y0 wout hout inp w h c n
    boundary eps larger H :
  let plan := splinter_plan inp w h c n boundary eps larger in
  trace (splinter_homography_geom st x0 y0 wout hout inp w h c n
           boundary eps larger H)
  = trace st
    ++ [PlanBuilt inp w h c n boundary eps larger]
    ++ map (eval_event x0 y0 (invert_homography H) plan) (pixels wout hout)
    ++ [PlanDestroyed plan]
  /\ NoDup (pixels wout hout)
  /\ (forall i j, In (i, j) (pixels wout hout)
                  <-> 0 <= i < wout /\ 0 <= j < hout).
Proof.
  intros plan. split; [apply splinter_homography_geom_trace|].
  split; [apply pixels_NoDup|]. intros i j. apply pixels_spec.
Qed.

(** C8. [splinter_homography] on an image of size [w] by [h] leaves the
    output buffer, and the whole state, that [splinter_homography_geom]
    leaves for the output area of offset [(0, 0)] and size [w] by [h]. *)
Theorem splinter_homography_is_geom st inp w h c n boundary eps larger H :
  let a := splinter_homography st inp w h c n boundary eps larger H in
  let b := splinter_homography_geom st 0 0 w h inp w h c n
             boundary eps larger H in
  mem a = mem b /\ out a = out b /\ trace a = trace b.
Proof.
  cbv zeta. unfold splinter_homography. repeat split.
Qed.

(** C9. The output is planar: the value of channel [k] at the pixel
    [(i, j)] is in the cell [out[k*wout*hout + j*wout + i]] when
    [splinter_homography_geom] returns, and this cell lies in the
    block of [wout*hout] cells of channel [k]. *)
Theorem splinter_homography_geom_planar st x0 y0 wout hout inp w h c n
    boundary eps larger H i j k :
  0 <= i < wout -> 0 <= j < hout -> 0 <= k < c ->
  mem (splinter_homography_geom st x0 y0 wout hout inp w h c n
         boundary eps larger H)
    !! (out st + (k * wout * hout + j * wout + i))
  = Some (pixel_value x0 y0 (invert_homography H)
            (splinter_plan inp w h c n boundary eps larger) i j k)
  /\ k * (wout * hout) <= k * wout * hout + j * wout + i
     < (k + 1) * (wout * hout).
Proof.
  intros Hi Hj Hk. split.
  - unfold splinter_homography_geom. cbv zeta.
    unfold log at 1. cbn [mem].
    match goal with |- mem (for_int 0 hout ?b ?s) !! _ = _ =>
      destruct (rows_mem x0 y0 wout hout c (invert_homography H)
                  (splinter_plan inp w h c n boundary eps larger) s)
        as [Hset _] end.
    cbv zeta in Hset. apply Hset; assumption.
  - pose proof (row_major_bound wout hout i j Hi Hj). lia.
Qed.

(** One turn of the loop of [parse_doubles]. *)
Lemma parse_doubles_loop_step t nmax base i w off :
  parse_doubles_loop t nmax base i w off
  = if Z_lt_dec i nmax then
      match sscanf_lg_c_n base off with
      | ScanEOF | ScanNoMatch => (t, i)
      | ScanDouble d =>
          parse_doubles_loop (aset t i d) nmax base (i + 1) w (off + w)
      | ScanDoubleChar d _ w' =>
          parse_doubles_loop (aset t i d) nmax base (i + 1) w' (off + w')
      end
    else (t, i).
Proof.
  rewrite parse_doubles_loop_equation_1.
  destruct (Z_lt_dec i nmax) as [Hlt|Hge]; simp parse_doubles_loop;
    [|reflexivity].
  destruct (sscanf_lg_c_n base off); simp parse_doubles_loop; reflexivity.
Qed.

Lemma string_drop_0 s : string_drop 0 s = s.
Proof. destruct s; reflexivity. Qed.

Lemma aset_app_cons pre r rest i d :
  Z.of_nat (List.length pre) = i ->
  aset (pre ++ r :: rest) i d = (pre ++ [d]) ++ rest.
Proof.
  intros Hi. unfold aset. replace (Z.to_nat i) with (List.length pre + 0)%nat by lia.
  rewrite insert_app_r. cbn. now rewrite <- app_assoc.
Qed.

Lemma last_cons_default (a : Z) m w : List.last (a :: m) w = List.last m a.
Proof.
  revert a w. induction m as [|b m IH]; intros a w; [reflexivity|].
  change (List.last (a :: b :: m) w) with (List.last (b :: m) w).
  change (List.last (b :: m) a) with (List.last (b :: m) a).
  now rewrite !IH.
Qed.

(** The loop along numbers that a character follows. *)
Lemma parse_doubles_loop_reads pre rest nmax base i w off l :
  reads_numbers base off l ->
  Z.of_nat (List.length pre) = i ->
  i + Z.of_nat (List.length l) <= nmax ->
  (List.length l <= List.length rest)%nat ->
  parse_doubles_loop (pre ++ rest) nmax base i w off
  = parse_doubles_loop ((pre ++ map fst l) ++ skipn (List.length l) rest)
      nmax base (i + Z.of_nat (List.length l))
      (width_after w l) (offset_after off l).
Proof.
  revert pre rest i w off.
  induction l as [|[d w'] l IH]; intros pre rest i w off Hr Hpre Hn Hlen.
  - cbn. rewrite app_nil_r, Z.add_0_r. reflexivity.
  - destruct Hr as [[c Hc] Hr]. cbn [List.length] in Hn, Hlen.
    destruct rest as [|r rest]; [cbn in Hlen; lia|].
    rewrite parse_doubles_loop_step.
    destruct (Z_lt_dec i nmax) as [_|Hge]; [|lia].
    rewrite Hc, (aset_app_cons pre r rest i d Hpre).
    rewrite (IH (pre ++ [d]) rest (i + 1) w' (off + w') Hr).
    + cbn [map fst skipn List.length]. rewrite <- !app_assoc. cbn [app].
      unfold width_after, offset_after. cbn [map snd fold_left].
      replace (i + 1 + Z.of_nat (List.length l))
        with (i + Z.of_nat (Datatypes.S (List.length l))) by lia.
      f_equal. symmetry. apply last_cons_default.
    + rewrite length_app. cbn. lia.
    + lia.
    + cbn in Hlen. lia.
Qed.



(** What the loop computes, in exact arithmetic: for [eps >= 1], ten to
    the power minus the ceiling of [eps], which is [10^(-eps)] exactly
    when [eps] is an integer; for [eps < 1], [eps]. *)
Lemma fix_precision_ceiling eps :
  ((1 <= eps)%Q ->
     Q2R (fix_precision eps) = Rpower 10 (- IZR (Qceiling eps)))
  /\ ((1 <= eps)%Q ->
        (Q2R (fix_precision eps) = Rpower 10 (- Q2R eps)
         <-> (inject_Z (Qceiling eps) == eps)%Q))
  /\ ((eps < 1)%Q -> fix_precision eps = eps).
Proof.
  assert (Hge : (1 <= eps)%Q ->
            Q2R (fix_precision eps) = Rpower 10 (- IZR (Qceiling eps))).
  { intros H1. rewrite (Qeq_eqR _ _ (fix_precision_ge eps H1)).
    assert (Hc : 0 <= Qceiling eps).
    { change 0 with (Qceiling 0). apply Qceiling_resp_le. Lqa.lra. }
    rewrite <- (Z2Nat.id (Qceiling eps)) by exact Hc.
    apply Q2R_tenth_power. }
  split; [exact Hge|]. split; [|apply fix_precision_lt].
  intros H1. rewrite (Hge H1).
  pose proof (Q2R_inject_Z (Qceiling eps)) as Hz. split.
  - intros Heq. apply Rpower_10_inj in Heq. apply eqR_Qeq. Lra.lra.
  - intros Heq. apply Qeq_eqR in Heq. rewrite <- Heq, Hz. reflexivity.
Qed.

(** C4. [read_ext] sets [larger] to 1 when it was 0 and the extension is
    the constant one, and leaves [larger] as it was for the other three
    extensions; so [main] never builds a plan with the constant
    extension and [larger] equal to 0. *)
Theorem constant_forces_larger :
  (forall boundary larger ext larger',
     read_ext boundary larger = Return (ext, larger') ->
     (ext = BOUNDARY_CONSTANT ->
        larger' <> 0 /\ (larger = 0 -> larger' = 1)
        /\ (larger <> 0 -> larger' = larger))
     /\ (ext <> BOUNDARY_CONSTANT -> larger' = larger))
  /\ (forall argv inp w h c n eps larger,
        In (PlanBuilt inp w h c n BOUNDARY_CONSTANT eps larger)
           (trace (snd (main argv))) ->
        larger <> 0).
Proof.
  split; [apply read_ext_larger|].
  intros argv inp w h c n eps larger Hin.
  destruct (main_cases argv) as [Hf|Hs].
  - rewrite Hf in Hin. destruct Hin.
  - destruct Hs as (ext & l & homo & inp0 & w0 & h0 & c0 & x0 & y0 & wout
                    & hout & _ & _ & Hext & _ & _ & _ & Hm).
    rewrite Hm in Hin. cbn [snd] in Hin.
    apply in_trace_plan_built in Hin; [|reflexivity].
    inversion Hin; subst.
    destruct (read_ext_larger _ _ _ _ Hext) as [Hc _].
    now destruct (Hc eq_refl).
Qed.

(** C5. With a geometry that selects the bounding box, [parse_geometry]
    returns 0, sets [x] and [y] to the least coordinates of the images
    of the four corners [(0,0)], [(w,0)], [(0,h)], [(w,h)], and sets
    [w] and [h] to the ceilings of the differences between the greatest
    and the least coordinates. *)
Theorem parse_geometry_auto x y w h H g :
  g <> EmptyString -> String.prefix g "auto" = true ->
  exists minx miny maxx maxy,
    parse_geometry x y w h H g
    = (0, (minx, miny, Qceiling (maxx - minx), Qceiling (maxy - miny)))
    /\ is_min minx (map fst (corner_images w h H))
    /\ is_max maxx (map fst (corner_images w h H))
    /\ is_min miny (map snd (corner_images w h H))
    /\ is_max maxy (map snd (corner_images w h H)).
Proof.
  intros Hne Hauto. unfold parse_geometry.
  rewrite !strncmp_prefix_b, Hauto, (prefix_auto_not_center g Hne Hauto).
  cbv zeta. pose proof (transform_corners_eq w h H) as Hc.
  cbv zeta in Hc. rewrite Hc.
  match goal with |- context [bounding_box [?a0; ?b0; ?a1; ?b1; ?a2; ?b2; ?a3; ?b3]] =>
    destruct (bounding_box_eq a0 b0 a1 b1 a2 b2 a3 b3)
      as (minx & miny & maxx & maxy & -> & Hmx & HMx & Hmy & HMy) end.
  exists minx, miny, maxx, maxy. split; [reflexivity|].
  repeat split; first [apply Hmx | apply HMx | apply Hmy | apply HMy].
Qed.

(** C6. With a geometry that is a prefix of [center], [parse_geometry]
    returns 0, leaves [w] and [h] as they are, and sets [x] and [y] so
    that the centre [(x + w/2, y + h/2)] of the output window is the
    image of the centre of the input window. *)
Theorem parse_geometry_center x y w h H g :
  String.prefix g "center" = true ->
  exists x' y',
    parse_geometry x y w h H g = (0, (x', y', w, h))
    /\ let hc := apply_homography H
                   ((x + inject_Z w / 2)%Q, (y + inject_Z h / 2)%Q) in
       (x' + inject_Z w / 2 == fst hc)%Q /\ (y' + inject_Z h / 2 == snd hc)%Q.
Proof.
  intros Hcenter. unfold parse_geometry.
  rewrite strncmp_prefix_b, Hcenter. cbv zeta.
  eexists; eexists. split; [reflexivity|]. split; ring.
Qed.

(** C10. [read_ext] returns the extension of the first of the names
    [constant], [periodic], [hsymmetric], [wsymmetric] of which the
    argument is a prefix: [c] and [h] are accepted, the empty string is
    the constant extension and sets [larger] to 1, and the program
    exits, with a failure, exactly when the argument is a prefix of
    none of the four names. *)
Theorem read_ext_prefix_matching :
  (forall boundary larger,
     read_ext boundary larger
     = match first_boundary boundary with
       | Some BOUNDARY_CONSTANT =>
           Return (BOUNDARY_CONSTANT, if larger =? 0 then 1 else larger)
       | Some ext => Return (ext, larger)
       | None => Exit EXIT_FAILURE
       end)
  /\ (forall larger,
        read_ext "c" larger
        = Return (BOUNDARY_CONSTANT, if larger =? 0 then 1 else larger))
  /\ (forall larger, read_ext "h" larger = Return (BOUNDARY_HSYMMETRIC, larger))
  /\ read_ext "" 0 = Return (BOUNDARY_CONSTANT, 1)
  /\ (forall boundary larger status,
        read_ext boundary larger = Exit status
        <-> status = EXIT_FAILURE
            /\ forall name ext, In (name, ext) boundary_names ->
                                String.prefix boundary name = false).
Proof.
  split; [apply read_ext_first_boundary|].
  split; [reflexivity|]. split; [reflexivity|]. split; [reflexivity|].
  intros boundary larger status. rewrite <- first_boundary_None.
  rewrite read_ext_first_boundary. split.
  - destruct (first_boundary boundary) as [[]|]; try discriminate.
    intros Heq. inversion Heq. split; reflexivity.
  - intros [-> ->]. reflexivity.
Qed.

(** ** Further properties of [parse_doubles] *)

Lemma aget_aset_ne a i k v :
  0 <= i -> 0 <= k -> k <> i -> aget (aset a i v) k = aget a k.
Proof.
  intros Hi Hk Hne. unfold aget, aset.
  rewrite !nth_lookup, list_lookup_insert_ne by lia. reflexivity.
Qed.

Lemma parse_doubles_loop_bounds t nmax base i w off :
  0 <= i ->
  let r := parse_doubles_loop t nmax base i w off in
  i <= snd r <= Z.max i nmax
  /\ List.length (fst r) = List.length t
  /\ (forall k, 0 <= k -> k < i \/ snd r <= k -> aget (fst r) k = aget t k).
Proof.
  funelim (parse_doubles_loop t nmax base i w off); intros Hi; cbv zeta.
  all: try (cbn [fst snd]; split; [lia|]; split; [reflexivity|];
            intros; reflexivity).
  all: match goal with
       | IH : 0 <= ?i + 1 -> _ |- _ =>
           destruct (IH ltac:(lia)) as (Hn & Hlen & Hk)
       end.
  all: split; [lia|]; split;
    [rewrite Hlen; unfold aset; apply length_insert|].
  all: intros k Hk0 Hcases; rewrite Hk by lia;
    apply aget_aset_ne; lia.
Qed.

(** X1. [parse_doubles] stores at most [nmax] numbers, whatever the
    string and whatever lies behind it: the count it returns is
    between 0 and [nmax], the array keeps its length, and the entries
    from the count on are those of the array it was given. *)
Theorem parse_doubles_bounds t nmax s :
  let r := parse_doubles t nmax s in
  0 <= snd r <= Z.max 0 nmax
  /\ List.length (fst r) = List.length t
  /\ (forall k, snd r <= k -> aget (fst r) k = aget t k).
Proof.
  cbv zeta. unfold parse_doubles.
  destruct (parse_doubles_loop_bounds t nmax s 0 indeterminate_int 0
              ltac:(lia)) as (Hn & Hlen & Hk).
  split; [exact Hn|]. split; [exact Hlen|].
  intros k Hge. apply Hk; lia.
Qed.

(** X2. On a string that is empty or holds white space only, and for a
    capacity that is not positive, [parse_doubles] returns 0 and the
    array as it was. *)
Theorem parse_doubles_nothing t nmax s :
  skip_space s = EmptyString \/ nmax <= 0 ->
  parse_doubles t nmax s = (t, 0).
Proof.
  intros Hcase. unfold parse_doubles. rewrite parse_doubles_loop_step.
  destruct (Z_lt_dec 0 nmax) as [Hlt|Hge]; [|reflexivity].
  destruct Hcase as [Hblank|Hle]; [|lia].
  unfold sscanf_lg_c_n, deref. change (0 <=? 0) with true.
  replace (0 <=? Z.of_nat (strlen s)) with true by (symmetry; apply Z.leb_le; lia).
  cbn [andb]. change (Z.to_nat 0) with 0%nat. rewrite string_drop_0, Hblank.
  reflexivity.
Qed.

Lemma parse_doubles_loop_full t nmax base i w off :
  nmax <= i -> parse_doubles_loop t nmax base i w off = (t, i).
Proof.
  intros Hge. rewrite parse_doubles_loop_step.
  destruct (Z_lt_dec i nmax); [lia|reflexivity].
Qed.

(** X3. When the string holds [nmax] numbers, each followed by a
    character but for the last, which may end the string,
    [parse_doubles] returns [nmax] and stores the numbers in their
    order; the memory behind the string and the width that was never
    assigned play no part. *)
Theorem parse_doubles_reads_all t nmax s l final :
  reads_numbers s 0 l ->
  match final with
  | Some d => sscanf_lg_c_n s (offset_after 0 l) = ScanDouble d
  | None => True
  end ->
  Z.of_nat (List.length (map fst l ++ option_list final)) = nmax ->
  (Z.to_nat nmax <= List.length t)%nat ->
  parse_doubles t nmax s
  = (map fst l ++ option_list final ++ skipn (Z.to_nat nmax) t, nmax).
Proof.
  intros Hr Hfinal Hn Hlen. unfold parse_doubles.
  rewrite length_app, length_map in Hn.
  change t with ([] ++ t) at 1.
  rewrite (parse_doubles_loop_reads [] t nmax s 0 indeterminate_int 0 l Hr);
    [|reflexivity|lia|lia].
  cbn [app]. rewrite Z.add_0_l.
  destruct final as [d|]; simpl in Hn; cbn [option_list].
  - rewrite parse_doubles_loop_step.
    destruct (Z_lt_dec (Z.of_nat (List.length l)) nmax) as [_|Hge]; [|lia].
    rewrite Hfinal.
    destruct (skipn (List.length l) t) as [|r rest] eqn:Hskip.
    { apply (f_equal (@List.length Q)) in Hskip.
      rewrite length_skipn in Hskip. cbn in Hskip. lia. }
    rewrite aset_app_cons by (now rewrite length_map).
    rewrite parse_doubles_loop_full by lia.
    f_equal; [|lia]. rewrite <- app_assoc. cbn [app]. do 2 f_equal.
    replace (Z.to_nat nmax) with (List.length l + 1)%nat by lia.
    rewrite <- drop_drop, Hskip. reflexivity.
  - rewrite parse_doubles_loop_full by lia.
    replace (Z.to_nat nmax) with (List.length l) by lia.
    f_equal. lia.
Qed.

(** X4. [parse_doubles] stops at the first read that finds no number:
    after numbers that a character follows, fewer than [nmax], a read
    that fails or meets the end of the string ends the loop, and the
    count is the number of numbers read. *)
Theorem parse_doubles_stops t nmax s l :
  reads_numbers s 0 l ->
  Z.of_nat (List.length l) < nmax ->
  (List.length l <= List.length t)%nat ->
  sscanf_lg_c_n s (offset_after 0 l) = ScanEOF
  \/ sscanf_lg_c_n s (offset_after 0 l) = ScanNoMatch ->
  parse_doubles t nmax s
  = (map fst l ++ skipn (List.length l) t, Z.of_nat (List.length l)).
Proof.
  intros Hr Hn Hlen Hfail. unfold parse_doubles.
  change t with ([] ++ t) at 1.
  rewrite (parse_doubles_loop_reads [] t nmax s 0 indeterminate_int 0 l Hr);
    [|reflexivity|lia|lia].
  cbn [app]. rewrite Z.add_0_l, parse_doubles_loop_step.
  destruct (Z_lt_dec (Z.of_nat (List.length l)) nmax) as [_|Hge]; [|lia].
  destruct Hfail as [-> | ->]; reflexivity.
Qed.

(** X5. The result of [parse_doubles] does not depend on the value the
    width [w] starts with, when no number is asked for or the first
    read is not a number that ends the string: the loop does not run,
    or it ends at once, or [%n] assigns [w] before [s += w] reads it.
    (After a first number that ends the string, [s += w] reads the
    unassigned [w].) *)
Theorem parse_doubles_width_assigned t nmax s w1 w2 :
  nmax <= 0 \/ (forall d, sscanf_lg_c_n s 0 <> ScanDouble d) ->
  parse_doubles_loop t nmax s 0 w1 0 = parse_doubles_loop t nmax s 0 w2 0.
Proof.
  intros Hcase. rewrite !(parse_doubles_loop_step t nmax s 0).
  destruct (Z_lt_dec 0 nmax) as [Hlt|Hge]; [|reflexivity].
  destruct (sscanf_lg_c_n s 0) as [| |d|d c w'] eqn:Hread; try reflexivity.
  destruct Hcase as [Hle|Hno]; [lia|].
  exfalso. exact (Hno d eq_refl).
Qed.

(** ** Further properties of [parse_geometry] *)

(** [sscanf] converts the first [n] items and no other. *)
Lemma sscanf_d_x_d_lg_lg_shape g :
  let '(n, (ow, oh, ox, oy)) := sscanf_d_x_d_lg_lg g in
  ((n = -1 \/ n = 0) /\ ow = None /\ oh = None /\ ox = None /\ oy = None)
  \/ (n = 1 /\ ow <> None /\ oh = None /\ ox = None /\ oy = None)
  \/ (n = 2 /\ ow <> None /\ oh <> None /\ ox = None /\ oy = None)
  \/ (n = 3 /\ ow <> None /\ oh <> None /\ ox <> None /\ oy = None)
  \/ (n = 4 /\ ow <> None /\ oh <> None /\ ox <> None /\ oy <> None).
Proof.
  unfold sscanf_d_x_d_lg_lg.
  destruct (skip_space g) as [|c0 g0]; [left; repeat split; auto|].
  destruct (scan_int (String c0 g0)) as [[w s1]|];
    [|left; repeat split; auto].
  destruct s1 as [|[[] [] [] [] [] [] [] []] s2]; cbv beta iota;
    try (right; left; repeat split; auto; discriminate).
  destruct (scan_int (skip_space _)) as [[h s3]|];
    [|right; left; repeat split; auto; discriminate].
  destruct (strtod (skip_space s3)) as [[x k]|].
  2:{ right. right. left. repeat split; auto; discriminate. }
  destruct (strtod _) as [[y k']|].
  - right. right. right. right. repeat split; auto; discriminate.
  - right. right. right. left. repeat split; auto; discriminate.
Qed.

(** X7. A geometry given by its size is decoded from the string alone:
    when [parse_geometry] accepts a string that is a prefix of neither
    name, the width and the height it sets are positive, the offset is
    [(0, 0)] when two items are converted, and the window, the
    homography and the values [x], [y], [w], [h] held before play no
    part. *)
Theorem parse_geometry_explicit x y w h H g x' y' w' h' :
  String.prefix g "center" = false -> String.prefix g "auto" = false ->
  parse_geometry x y w h H g = (0, (x', y', w', h')) ->
  0 < w' /\ 0 < h'
  /\ (fst (sscanf_d_x_d_lg_lg g) = 2 -> x' = 0%Q /\ y' = 0%Q)
  /\ (forall x2 y2 w2 h2 H2,
        parse_geometry x2 y2 w2 h2 H2 g = (0, (x', y', w', h'))).
Proof.
  intros Hc Ha. unfold parse_geometry. rewrite !strncmp_prefix_b, Hc, Ha.
  pose proof (sscanf_d_x_d_lg_lg_shape g) as Hshape.
  destruct (sscanf_d_x_d_lg_lg g) as [n [[[ow oh] ox] oy]]. cbv zeta.
  destruct (negb (n =? 2) && negb (n =? 4)) eqn:Hn; [discriminate|].
  assert (Hn24 : n = 2 \/ n = 4).
  { apply andb_false_iff in Hn as [Hn|Hn];
      apply negb_false_iff, Z.eqb_eq in Hn; auto. }
  assert (Hwh : exists w1 h1, ow = Some w1 /\ oh = Some h1).
  { destruct ow as [w1|], oh as [h1|]; eauto;
      exfalso; destruct Hshape as [Hs|[Hs|[Hs|[Hs|Hs]]]];
      destruct Hs as (Hs0 & Hs1 & Hs2 & _); try congruence; lia. }
  destruct Hwh as (w1 & h1 & -> & ->). cbn [assigned].
  destruct ((w1 <=? 0) || (h1 <=? 0)) eqn:Hpos; [discriminate|].
  intros Heq. inversion Heq; subst.
  apply orb_false_iff in Hpos as [Hw Hh]. apply Z.leb_gt in Hw, Hh.
  split; [exact Hw|]. split; [exact Hh|]. split; [|reflexivity].
  cbn [fst]. intros ->.
  destruct Hshape as [Hs|[Hs|[Hs|[Hs|Hs]]]];
    destruct Hs as (Hs0 & _ & _ & Hox & Hoy); try lia.
  subst ox oy. split; reflexivity.
Qed.

(** The result of the bounding box, as C5 states it. *)
Lemma parse_geometry_auto_box x y w h H g :
  g <> EmptyString -> String.prefix g "auto" = true ->
  exists minx miny maxx maxy,
    parse_geometry x y w h H g
    = (0, (minx, miny, Qceiling (maxx - minx), Qceiling (maxy - miny)))
    /\ is_min minx (map fst (corner_images w h H))
    /\ is_max maxx (map fst (corner_images w h H))
    /\ is_min miny (map snd (corner_images w h H))
    /\ is_max maxy (map snd (corner_images w h H)).
Proof.
  intros Hne Hauto. unfold parse_geometry.
  rewrite !strncmp_prefix_b, Hauto, (prefix_auto_not_center g Hne Hauto).
  cbv zeta. pose proof (transform_corners_eq w h H) as Hc.
  cbv zeta in Hc. rewrite Hc.
  match goal with |- context [bounding_box [?a0; ?b0; ?a1; ?b1; ?a2; ?b2; ?a3; ?b3]] =>
    destruct (bounding_box_eq a0 b0 a1 b1 a2 b2 a3 b3)
      as (minx & miny & maxx & maxy & -> & Hmx & HMx & Hmy & HMy) end.
  exists minx, miny, maxx, maxy. split; [reflexivity|].
  repeat split; first [apply Hmx | apply HMx | apply Hmy | apply HMy].
Qed.

(** X8. The window of the bounding box holds the images of the four
    corners: its width and height are not negative, and each image
    [(px, py)] has [x <= px <= x + w] and [y <= py <= y + h].  The size
    is not checked to be positive. *)
Theorem parse_geometry_auto_contains x y w h H g x' y' w' h' r :
  g <> EmptyString -> String.prefix g "auto" = true ->
  parse_geometry x y w h H g = (r, (x', y', w', h')) ->
  r = 0 /\ 0 <= w' /\ 0 <= h'
  /\ forall p, In p (corner_images w h H) ->
       (x' <= fst p <= x' + inject_Z w')%Q
       /\ (y' <= snd p <= y' + inject_Z h')%Q.
Proof.
  intros Hne Hauto Hres.
  destruct (parse_geometry_auto_box x y w h H g Hne Hauto)
    as (minx & miny & maxx & maxy & Heq & [Hmx1 Hmx2] & [HMx1 HMx2]
        & [Hmy1 Hmy2] & [HMy1 HMy2]).
  rewrite Heq in Hres. inversion Hres; subst. clear Hres.
  pose proof (Hmx2 _ HMx1) as Hx. pose proof (Hmy2 _ HMy1) as Hy.
  pose proof (Qle_ceiling (maxx - x')) as Hcx.
  pose proof (Qle_ceiling (maxy - y')) as Hcy.
  split; [reflexivity|]. split; [|split].
  - change 0 with (Qceiling 0). apply Qceiling_resp_le. Lqa.lra.
  - change 0 with (Qceiling 0). apply Qceiling_resp_le. Lqa.lra.
  - intros p Hp.
    pose proof (Hmx2 _ (in_map fst _ _ Hp)) as H1.
    pose proof (HMx2 _ (in_map fst _ _ Hp)) as H2.
    pose proof (Hmy2 _ (in_map snd _ _ Hp)) as H3.
    pose proof (HMy2 _ (in_map snd _ _ Hp)) as H4.
    repeat split; Lqa.lra.
Qed.

(** ** Further properties of [read_ext] and [fix_precision] *)

(** X9. For an argument that is not empty the order of the tests of
    [read_ext] plays no part: a non-empty prefix of one of the four
    names selects the extension of this name. *)
Theorem read_ext_nonempty_prefix b name ext larger :
  b <> EmptyString ->
  In (name, ext) boundary_names ->
  String.prefix b name = true ->
  read_ext b larger
  = match ext with
    | BOUNDARY_CONSTANT =>
        Return (BOUNDARY_CONSTANT, if larger =? 0 then 1 else larger)
    | _ => Return (ext, larger)
    end.
Proof.
  intros Hne Hin Hp. destruct b as [|c r]; [contradiction|].
  rewrite read_ext_first_boundary. unfold first_boundary, boundary_names.
  cbn [find fst snd option_map].
  destruct Hin as [Heq|[Heq|[Heq|[Heq|[]]]]]; inversion Heq; subst;
    pose proof Hp as Hp'; cbn [String.prefix] in Hp';
    match type of Hp' with
    | (if ascii_dec c ?a then _ else _) = true =>
        destruct (ascii_dec c a) as [->|]; [|discriminate]
    end;
    repeat match goal with
    | |- context [String.prefix (String ?a r) ?n] =>
        first [ rewrite Hp
              | replace (String.prefix (String a r) n) with false
                  by (cbn [String.prefix]; destruct (ascii_dec _ _);
                      [discriminate|reflexivity]) ]
    end; reflexivity.
Qed.

Lemma tenth_power_range n :
  (0 < (1 # 10) ^ Z.of_nat n)%Q /\ ((1 # 10) ^ Z.of_nat n <= 1)%Q.
Proof.
  split; [apply Qpower_0_lt; reflexivity|].
  induction n as [|n IH]; [discriminate|].
  rewrite Nat2Z.inj_succ. unfold Z.succ.
  rewrite Qpower_plus by discriminate.
  change ((1 # 10) ^ 1)%Q with (1 # 10)%Q.
  assert (0 < (1 # 10) ^ Z.of_nat n)%Q by (apply Qpower_0_lt; reflexivity).
  Lqa.lra.
Qed.

Lemma fix_precision_ge_bounds eps :
  (1 <= eps)%Q -> (0 < fix_precision eps)%Q /\ (fix_precision eps <= 1 # 10)%Q.
Proof.
  intros Hge. rewrite (fix_precision_ge eps Hge).
  assert (Hc : 1 <= Qceiling eps).
  { change 1 with (Qceiling 1). now apply Qceiling_resp_le. }
  replace (Qceiling eps) with (1 + Z.of_nat (Z.to_nat (Qceiling eps - 1))) by lia.
  rewrite Qpower_plus by discriminate.
  change ((1 # 10) ^ 1)%Q with (1 # 10)%Q.
  destruct (tenth_power_range (Z.to_nat (Qceiling eps - 1))) as [Hpos Hle].
  split; Lqa.lra.
Qed.

(** X10. [fix_precision] turns every positive value that the counter of
    its loop can reach, one of at most [INT_MAX], into a tolerance that
    is not negative and is strictly below 1.  (That it is not 0 is not
    stated: the product of doubles may underflow.) *)
Theorem fix_precision_range eps :
  (0 < eps <= inject_Z INT_MAX)%Q -> (0 <= fix_precision eps < 1)%Q.
Proof.
  intros [Hpos _]. destruct (Qlt_le_dec eps 1) as [Hlt|Hge].
  - rewrite (fix_precision_lt eps Hlt). split; [Lqa.lra|assumption].
  - destruct (fix_precision_ge_bounds eps Hge) as [H0 H1].
    split; Lqa.lra.
Qed.

(** X11. [fix_precision] applied twice is [fix_precision] applied once:
    its result is below 1 and is returned as it is. *)
Theorem fix_precision_idempotent eps :
  fix_precision (fix_precision eps) = fix_precision eps.
Proof.
  destruct (Qlt_le_dec eps 1) as [Hlt|Hge].
  - rewrite (fix_precision_lt eps Hlt). apply fix_precision_lt, Hlt.
  - apply fix_precision_lt.
    destruct (fix_precision_ge_bounds eps Hge) as [_ H1]. Lqa.lra.
Qed.

(** X12. From 1 on, a larger value gives a tolerance that is not
    larger. *)
Theorem fix_precision_antitone e1 e2 :
  (1 <= e1)%Q -> (e1 <= e2)%Q -> (fix_precision e2 <= fix_precision e1)%Q.
Proof.
  intros H1 H12. assert (H2 : (1 <= e2)%Q) by Lqa.lra.
  rewrite (fix_precision_ge e1 H1), (fix_precision_ge e2 H2).
  pose proof (Qceiling_resp_le _ _ H12) as Hc.
  replace (Qceiling e2)
    with (Qceiling e1 + Z.of_nat (Z.to_nat (Qceiling e2 - Qceiling e1))) by lia.
  rewrite Qpower_plus by discriminate.
  destruct (tenth_power_range (Z.to_nat (Qceiling e2 - Qceiling e1)))
    as [Hpos Hle].
  assert (H0 : (0 < (1 # 10) ^ Qceiling e1)%Q) by (apply Qpower_0_lt; reflexivity).
  rewrite <- (Qmult_1_r ((1 # 10) ^ Qceiling e1)) at 2.
  apply Qmult_le_l; assumption.
Qed.

(** ** Further properties of [splinter_homography_geom] *)

Lemma pixels_length wout hout :
  List.length (pixels wout hout) = (Z.to_nat wout * Z.to_nat hout)%nat.
Proof.
  unfold pixels.
  assert (Hl : forall l : list Z,
            List.length (flat_map (fun j => map (fun i => (i, j)) (seqZ 0 wout)) l)
            = (Z.to_nat wout * List.length l)%nat).
  { induction l as [|j l IH]; cbn [flat_map List.length]; [lia|].
    rewrite length_app, IH, length_map, length_seqZ. lia. }
  rewrite Hl, length_seqZ. reflexivity.
Qed.

Lemma pixels_empty wout hout : wout <= 0 \/ hout <= 0 -> pixels wout hout = [].
Proof.
  intros Hcase. apply length_zero_iff_nil. rewrite pixels_length.
  destruct Hcase; nia.
Qed.

(** X13. [splinter_homography_geom] writes the cells of the [c] planes
    of the output and no other: a cell that is not
    [out[k*wout*hout + j*wout + i]] for a pixel [(i, j)] and a channel
    [k] holds what it held before. *)
Theorem splinter_homography_geom_writes_planes_only st x0 y0 wout hout
    inp w h c n boundary eps larger H a :
  (forall i j k, 0 <= i < wout -> 0 <= j < hout -> 0 <= k < c ->
     a <> out st + (k * wout * hout + j * wout + i)) ->
  mem (splinter_homography_geom st x0 y0 wout hout inp w h c n
         boundary eps larger H) !! a = mem st !! a.
Proof. apply splinter_homography_geom_frame. Qed.

(** X14. For an output area without pixels, or an image without
    channels, [splinter_homography_geom] leaves the buffer as it is;
    it still builds the plan and destroys it, and with no pixel it
    evaluates nothing. *)
Theorem splinter_homography_geom_empty st x0 y0 wout hout inp w h c n
    boundary eps larger H :
  let st' := splinter_homography_geom st x0 y0 wout hout inp w h c n
               boundary eps larger H in
  (wout <= 0 \/ hout <= 0 \/ c <= 0 -> mem st' = mem st)
  /\ (wout <= 0 \/ hout <= 0 ->
        trace st'
        = trace st ++ [PlanBuilt inp w h c n boundary eps larger;
                       PlanDestroyed
                         (splinter_plan inp w h c n boundary eps larger)]).
Proof.
  cbv zeta. split.
  - intros Hcase. apply map_eq. intros a.
    apply splinter_homography_geom_frame. intros i j k Hi Hj Hk. lia.
  - intros Hcase. rewrite splinter_homography_geom_trace.
    rewrite pixels_empty by exact Hcase. reflexivity.
Qed.

(** X15. The number of calls: one construction, one destruction and
    [wout * hout] evaluations. *)
Theorem splinter_homography_geom_call_count st x0 y0 wout hout inp w h c n
    boundary eps larger H :
  List.length (trace (splinter_homography_geom st x0 y0 wout hout inp w h c n
                        boundary eps larger H))
  = (List.length (trace st) + 2 + Z.to_nat wout * Z.to_nat hout)%nat.
Proof.
  rewrite splinter_homography_geom_trace.
  rewrite !length_app, length_map, pixels_length. cbn [List.length]. lia.
Qed.

(** ** Further properties of [main] *)

(** X16. [main] ends with the status 0 or 1, and a run that fails has
    made no call into the core and written no cell of the output. *)
Theorem main_failure_no_calls argv :
  (fst (main argv) = EXIT_SUCCESS \/ fst (main argv) = EXIT_FAILURE)
  /\ (fst (main argv) <> EXIT_SUCCESS ->
        trace (snd (main argv)) = [] /\ mem (snd (main argv)) = ∅).
Proof.
  destruct (main_cases argv) as [Hf|Hs].
  - rewrite Hf. cbn [fst snd]. split; [now right|]. intros _. split; reflexivity.
  - destruct Hs as (ext & l & homo & inp & w & h & c & x0 & y0 & wout
                    & hout & _ & _ & _ & _ & _ & _ & Hm).
    rewrite Hm. cbn [fst]. split; [now left|]. intros Hne. now elim Hne.
Qed.

(** X17. A run of [main] that succeeds builds one plan, evaluates it
    once for each pixel of one output area and destroys it: the plan is
    built from the image that was read, with the order and the
    tolerance of the command line. *)
Theorem main_success_calls argv :
  fst (main argv) = EXIT_SUCCESS ->
  exists inp w h c ext larger homo x0 y0 wout hout,
    iio_read_image_double_split (arg argv 2) = (inp, w, h, c)
    /\ let plan := splinter_plan inp w h c (order_of argv) ext
                     (fix_precision (eps_of argv)) larger in
       trace (snd (main argv))
       = PlanBuilt inp w h c (order_of argv) ext
           (fix_precision (eps_of argv)) larger
         :: map (eval_event x0 y0 (invert_homography homo) plan)
              (pixels wout hout)
         ++ [PlanDestroyed plan].
Proof.
  intros Hok. destruct (main_cases argv) as [Hf|Hs].
  - rewrite Hf in Hok. discriminate.
  - destruct Hs as (ext & l & homo & inp & w & h & c & x0 & y0 & wout
                    & hout & _ & _ & _ & _ & Hrd & _ & Hm).
    exists inp, w, h, c, ext, l, homo, x0, y0, wout, hout.
    split; [exact Hrd|]. cbv zeta. rewrite Hm. cbn [snd].
    rewrite splinter_homography_geom_trace. reflexivity.
Qed.


(** X19. With no option on the command line [main] runs the transform
    on the area of the input image with the order 11, the
    half-symmetric extension, the tolerance [10^-6] and the exact
    domain; it refuses to run when [MAX_ORDER] is below 11. *)
Theorem main_defaults argv homo inp w h c :
  List.length argv = 4%nat ->
  parse_doubles (uninit 9) 9 (arg argv 1) = (homo, 9) ->
  iio_read_image_double_split (arg argv 2) = (inp, w, h, c) ->
  (11 <= MAX_ORDER ->
     main argv
     = (EXIT_SUCCESS,
        splinter_homography_geom st0 0 0 w h inp w h c 11
          BOUNDARY_HSYMMETRIC (fix_precision 6) 0 homo))
  /\ (fix_precision 6 == 1 # 1000000)%Q
  /\ (MAX_ORDER < 11 -> main argv = (EXIT_FAILURE, st0)).
Proof.
  intros Hlen Hpd Hrd. unfold arg in *. unfold main. cbv zeta.
  rewrite Hlen. change (Z.of_nat 4) with 4.
  change (4 <=? 4) with true. change (4 <=? 9) with true.
  change (4 <? 4) with false. change (5 <? 4) with false.
  change (6 <? 4) with false. change (7 <? 4) with false.
  change (8 <? 4) with false. cbn [andb negb].
  split; [|split].
  - intros Hord. apply Z.ltb_ge in Hord. rewrite Hord.
    change (read_ext "hsym" 0) with (Return (BOUNDARY_HSYMMETRIC, 0)).
    rewrite Hpd. cbn [Z.eqb Pos.eqb negb]. rewrite Hrd. reflexivity.
  - vm_compute. reflexivity.
  - intros Hord. apply Z.ltb_lt in Hord. rewrite Hord. reflexivity.
Qed.

(** ** The array given to [parse_doubles] *)

Lemma aget_aset_eq a i v :
  0 <= i < Z.of_nat (List.length a) -> aget (aset a i v) i = v.
Proof.
  intros Hi. unfold aget, aset.
  rewrite nth_lookup, list_lookup_insert_eq by lia. reflexivity.
Qed.

Lemma parse_doubles_loop_agree t1 t2 nmax base i w off :
  0 <= i ->
  List.length t1 = List.length t2 ->
  (forall k, 0 <= k < i -> aget t1 k = aget t2 k) ->
  let r1 := parse_doubles_loop t1 nmax base i w off in
  let r2 := parse_doubles_loop t2 nmax base i w off in
  snd r1 = snd r2
  /\ (forall k, 0 <= k < snd r1 -> k < Z.of_nat (List.length t1) ->
        aget (fst r1) k = aget (fst r2) k).
Proof.
  revert t2.
  funelim (parse_doubles_loop t1 nmax base i w off).
  all: intros t2 Hi Hlen Hagree.
  all: match goal with
       | Hl : List.length _ = List.length ?u |- _ =>
           rewrite (parse_doubles_loop_step u)
       end.
  all: match goal with
       | Hd : Z_lt_dec _ _ = _ |- _ => rewrite Hd
       end.
  all: try match goal with
           | Hs : sscanf_lg_c_n _ _ = _ |- _ => rewrite Hs
           end.
  all: try (cbn [fst snd]; split; [reflexivity|]; intros k Hk _;
            apply Hagree; lia).
  all: match goal with
       | IH : forall u : list Q, _, Hl : List.length _ = List.length ?v
         |- context [aset ?v ?i ?d] =>
           destruct (IH (aset v i d)) as [Hn Hk]
       end.
  all: try lia.
  all: try (unfold aset; rewrite !length_insert; assumption).
  all: try (split; [exact Hn|]; intros k Hk1 Hk2; apply Hk; [assumption|];
            unfold aset; rewrite length_insert; assumption).
  all: intros k Hk1; destruct (Z.eq_dec k i) as [->|Hne];
    [|rewrite !aget_aset_ne by lia; apply Hagree; lia].
  all: destruct (Z_lt_dec i (Z.of_nat (List.length t))) as [Hin|Hout];
    [rewrite !aget_aset_eq by lia; reflexivity|].
  all: unfold aget, aset; rewrite !nth_overflow; [reflexivity| |];
    rewrite length_insert; lia.
Qed.

(** The array given to [parse_doubles] and the result. *)
Lemma parse_doubles_array t1 t2 nmax s :
  List.length t1 = List.length t2 ->
  snd (parse_doubles t1 nmax s) = snd (parse_doubles t2 nmax s)
  /\ (Z.of_nat (List.length t1) = nmax ->
      snd (parse_doubles t1 nmax s) = nmax ->
      parse_doubles t1 nmax s = parse_doubles t2 nmax s).
Proof.
  intros Hlen. unfold parse_doubles.
  destruct (parse_doubles_loop_agree t1 t2 nmax s 0 indeterminate_int 0
              ltac:(lia) Hlen ltac:(intros; lia)) as [Hn Hk].
  cbv zeta in Hn, Hk. split; [exact Hn|].
  intros Hcap Hfull.
  destruct (parse_doubles_loop_bounds t1 nmax s 0 indeterminate_int 0
              ltac:(lia)) as (_ & Hl1 & _).
  destruct (parse_doubles_loop_bounds t2 nmax s 0 indeterminate_int 0
              ltac:(lia)) as (_ & Hl2 & _).
  cbv zeta in Hl1, Hl2.
  destruct (parse_doubles_loop t1 nmax s 0 indeterminate_int 0) as [a1 n1].
  destruct (parse_doubles_loop t2 nmax s 0 indeterminate_int 0) as [a2 n2].
  cbn [fst snd] in *. subst n2. f_equal.
  apply (nth_ext a1 a2 0%Q 0%Q); [congruence|].
  intros k Hklt. specialize (Hk (Z.of_nat k)). unfold aget in Hk.
  rewrite Nat2Z.id in Hk. apply Hk; lia.
Qed.

(** X20. The count [parse_doubles] returns does not depend on the array
    it is given, and when it fills an array of [nmax] entries nothing
    of what the array held remains: the nine coefficients of the
    homography are those of the string. *)
Theorem parse_doubles_fills t1 t2 nmax s :
  List.length t1 = List.length t2 ->
  snd (parse_doubles t1 nmax s) = snd (parse_doubles t2 nmax s)
  /\ (Z.of_nat (List.length t1) = nmax ->
      snd (parse_doubles t1 nmax s) = nmax ->
      parse_doubles t1 nmax s = parse_doubles t2 nmax s).
Proof. apply parse_doubles_array. Qed.

End Driver.

(** ** Locals that are not assigned *)

Lemma parse_geometry_junk
    (apply_homography : list Q -> Q * Q -> Q * Q)
    (strtod : string -> option (Q * nat))
    (junk1 junk2 : nat -> Q) x y w h H g :
  parse_geometry apply_homography strtod junk1 x y w h H g
  = parse_geometry apply_homography strtod junk2 x y w h H g.
Proof.
  unfold parse_geometry.
  pose proof (transform_corners_eq apply_homography junk1 w h H) as H1.
  pose proof (transform_corners_eq apply_homography junk2 w h H) as H2.
  cbv zeta in H1, H2. rewrite H1, H2. reflexivity.
Qed.

(** X21. [parse_geometry] reads no entry of its local arrays before it
    assigns it: the values the arrays hold at first play no part. *)
Theorem parse_geometry_reads_no_unassigned
    (apply_homography : list Q -> Q * Q -> Q * Q)
    (strtod : string -> option (Q * nat))
    (junk1 junk2 : nat -> Q) x y w h H g :
  parse_geometry apply_homography strtod junk1 x y w h H g
  = parse_geometry apply_homography strtod junk2 x y w h H g.
Proof. apply parse_geometry_junk. Qed.

(** X22. [main] reads no entry of the array of the homography, nor of
    the arrays of [parse_geometry], before it is assigned: the array is
    passed to the core only when [parse_doubles] has filled it. *)
Theorem main_reads_no_unassigned_double
    (Plan : Type)
    (splinter_plan : list Q -> Z -> Z -> Z -> Z -> BoundaryExt -> Q -> Z -> Plan)
    (splinter : Plan -> Q -> Q -> Z -> Q)
    (invert_homography : list Q -> list Q)
    (apply_homography : list Q -> Q * Q -> Q * Q)
    (MAX_ORDER : Z)
    (strtod : string -> option (Q * nat))
    (wild_sscanf : string -> Z -> scan_lgc)
    (indeterminate_int : Z)
    (junk1 junk2 : nat -> Q)
    (iio_read_image_double_split : string -> list Q * Z * Z * Z)
    (argv : list string) :
  main Plan splinter_plan splinter invert_homography apply_homography
    MAX_ORDER strtod wild_sscanf indeterminate_int junk1
    iio_read_image_double_split argv
  = main Plan splinter_plan splinter invert_homography apply_homography
      MAX_ORDER strtod wild_sscanf indeterminate_int junk2
      iio_read_image_double_split argv.
Proof.
  unfold main. cbv zeta.
  destruct (negb _); [reflexivity|].
  destruct (MAX_ORDER <? _); [reflexivity|].
  destruct (read_ext _ _) as [[ext larger]|status]; [|reflexivity].
  destruct (parse_doubles_array strtod wild_sscanf indeterminate_int
              (uninit junk1 9) (uninit junk2 9) 9
              (nth 1 argv EmptyString) eq_refl) as [Hn Hfull].
  destruct (parse_doubles strtod wild_sscanf indeterminate_int
              (uninit junk1 9) 9 _) as [h1 n1] eqn:E1.
  destruct (parse_doubles strtod wild_sscanf indeterminate_int
              (uninit junk2 9) 9 _) as [h2 n2] eqn:E2.
  cbn [snd] in Hn, Hfull. subst n2.
  destruct (n1 =? 9) eqn:Hn9; cbn [negb]; [|reflexivity].
  apply Z.eqb_eq in Hn9. specialize (Hfull eq_refl Hn9).
  inversion Hfull; subst h2.
  destruct (iio_read_image_double_split _) as [[[inp w] h] c].
  destruct (if 8 <? _ then _ else _) as [g|]; [|reflexivity].
  rewrite (parse_geometry_junk apply_homography strtod
             junk1 junk2).
  reflexivity.
Qed.

(** ** The driver on concrete inputs *)

Local Abbreviation sample_main :=
  (main sample_plan sample_splinter_plan sample_splinter sample_invert
     sample_apply sample_MAX_ORDER strtod_decimal sample_wild_sscanf
     sample_indeterminate_int sample_indeterminate_double sample_read).

Local Abbreviation sample_geom :=
  (splinter_homography_geom sample_plan sample_splinter_plan sample_splinter
     sample_invert sample_apply).

Local Abbreviation sample_parse_geometry :=
  (parse_geometry sample_apply strtod_decimal sample_indeterminate_double).



(** C3, the failing input: for [eps = 3/2], which is 1 or more,
    [fix_precision] does not return ten to the power [-3/2], as its
    comment and the usage text say; the loop runs twice and returns
    [1/100]. *)
Lemma fix_precision_one_and_a_half :
  (1 <= 3 # 2)%Q
  /\ Q2R (fix_precision (3 # 2)) <> Rpower 10 (- Q2R (3 # 2)).
Proof.
  split; [Lqa.lra|].
  assert (E : fix_precision (3 # 2) = (1 # 100)%Q) by (vm_compute; reflexivity).
  rewrite E. intros Heq.
  assert (Hsq : (Q2R (1 # 100) * Q2R (1 # 100)
                 = Rpower 10 (- Q2R (3 # 2)) * Rpower 10 (- Q2R (3 # 2)))%R)
    by (rewrite <- Heq; reflexivity).
  rewrite <- Rpower_plus in Hsq.
  replace (- Q2R (3 # 2) + - Q2R (3 # 2))%R with (- INR 3)%R in Hsq
    by (unfold Q2R; simpl; Lra.lra).
  rewrite Rpower_Ropp, Rpower_pow in Hsq by Lra.lra.
  unfold Q2R in Hsq. simpl in Hsq. Lra.lra.
Qed.

Lemma constant_forces_larger_witness :
  read_ext "constant" 0 = Return (BOUNDARY_CONSTANT, 1)
  /\ In (PlanBuilt [1; 2; 3; 4; 5; 6]%Q 3 2 1 3 BOUNDARY_CONSTANT (1 # 100) 1)
        (trace (snd (sample_main
           ["splinter"; "2 0 1; 0 2 0; 0 0 1"; "in.png"; "out.png";
            "3"; "c"; "2"; "0"; "2x2+1+1"]%string)))
  /\ 1 <> 0.
Proof.
  split; [reflexivity|].
  assert (Hin : In (PlanBuilt (Plan := sample_plan)
                      [1; 2; 3; 4; 5; 6]%Q 3 2 1 3 BOUNDARY_CONSTANT (1 # 100) 1)
                   (trace (snd (sample_main
                      ["splinter"; "2 0 1; 0 2 0; 0 0 1"; "in.png"; "out.png";
                       "3"; "c"; "2"; "0"; "2x2+1+1"]%string))))
    by (vm_compute; left; reflexivity).
  split; [exact Hin|].
  exact (proj2 (constant_forces_larger _ _ _ _ _ _ _ _ _ _ _) _ _ _ _ _ _ _ _ Hin).
Defined.

Lemma parse_geometry_auto_witness :
  "auto"%string <> EmptyString /\ String.prefix "auto" "auto" = true
  /\ exists minx miny maxx maxy,
       sample_parse_geometry 0 0 3 2 sample_H "auto"
       = (0, (minx, miny, Qceiling (maxx - minx), Qceiling (maxy - miny)))
       /\ is_min minx (map fst (corner_images sample_apply 3 2 sample_H))
       /\ is_max maxx (map fst (corner_images sample_apply 3 2 sample_H))
       /\ is_min miny (map snd (corner_images sample_apply 3 2 sample_H))
       /\ is_max maxy (map snd (corner_images sample_apply 3 2 sample_H)).
Proof.
  split; [discriminate|]. split; [reflexivity|].
  apply parse_geometry_auto; [discriminate|reflexivity].
Defined.

Lemma parse_geometry_center_witness :
  String.prefix "center" "center" = true
  /\ exists x' y',
       sample_parse_geometry 0 0 3 2 sample_H "center" = (0, (x', y', 3, 2))
       /\ let hc := sample_apply sample_H
                      ((0 + inject_Z 3 / 2)%Q, (0 + inject_Z 2 / 2)%Q) in
          (x' + inject_Z 3 / 2 == fst hc)%Q /\ (y' + inject_Z 2 / 2 == snd hc)%Q.
Proof.
  split; [reflexivity|]. apply parse_geometry_center. reflexivity.
Defined.

Lemma splinter_homography_geom_planar_witness :
  (0 <= 1 < 3 /\ 0 <= 1 < 2 /\ 0 <= 0 < 1)
  /\ mem (sample_geom (XState ∅ 0 []) 0 0 3 2 [1; 2; 3; 4; 5; 6]%Q 3 2 1 3
            BOUNDARY_PERIODIC (1 # 100) 0 sample_H)
       !! (0 + (0 * 3 * 2 + 1 * 3 + 1))
     = Some (pixel_value sample_plan sample_splinter sample_apply 0 0
               (sample_invert sample_H)
               (sample_splinter_plan [1; 2; 3; 4; 5; 6]%Q 3 2 1 3
                  BOUNDARY_PERIODIC (1 # 100) 0) 1 1 0).
Proof.
  split; [lia|].
  apply (splinter_homography_geom_planar sample_plan sample_splinter_plan
           sample_splinter sample_invert sample_apply (XState ∅ 0 []) 0 0 3 2
           [1; 2; 3; 4; 5; 6]%Q 3 2 1 3 BOUNDARY_PERIODIC (1 # 100) 0 sample_H
           1 1 0); lia.
Defined.

(** C7, the failing input: with the order [-1], [main] succeeds and
    builds a plan of order [-1]. *)
Theorem main_passes_negative_order :
  let run := sample_main ["splinter"; "1 0 0 0 1 0 0 0 1"; "in.png";
                          "out.png"; "-1"]%string in
  fst run = EXIT_SUCCESS
  /\ hd_error (trace (snd run))
     = Some (PlanBuilt [1; 2; 3; 4; 5; 6]%Q 3 2 1 (-1) BOUNDARY_HSYMMETRIC
               (1 # 1000000) 0).
Proof.
  vm_compute. split; reflexivity.
Qed.

(** Numerals out of the range of an [int]: the order [4294967297] is
    read as 1, and the width [2147483648] as [- 2 ^ 31], which
    [parse_geometry] refuses. *)
Example atoi_out_of_range :
  atoi "4294967297" = 1 /\ atoi "2147483648" = - 2 ^ 31
  /\ atoi "99999999999999999999" = -1.
Proof. vm_compute. repeat split. Qed.

Example parse_geometry_width_out_of_range :
  fst (sample_parse_geometry 0 0 3 2 sample_H "2147483648x5") = 1.
Proof. vm_compute. reflexivity. Qed.

(** What the scanners accept beyond the documented forms: text after the
    two integers of a geometry is not read, and a tenth number of a
    homography neither. *)
Example parse_geometry_trailing_text :
  sample_parse_geometry 0 0 3 2 sample_H "3x4abc" = (0, (0%Q, 0%Q, 3, 4)).
Proof. vm_compute. reflexivity. Qed.

Example parse_doubles_ten_numbers :
  snd (parse_doubles strtod_decimal sample_wild_sscanf sample_indeterminate_int
         (uninit sample_indeterminate_double 9) 9 "1 2 3 4 5 6 7 8 9 10") = 9.
Proof. vm_compute. reflexivity. Qed.

(** After a last number that no character follows, [parse_doubles]
    advances by the previous width and reads outside the string: with
    three numbers the count depends on what is found there. *)
Example parse_doubles_reads_outside :
  snd (parse_doubles strtod_decimal (fun _ _ => ScanNoMatch)
         sample_indeterminate_int
         (uninit sample_indeterminate_double 9) 9 "1 2 3") = 3
  /\ snd (parse_doubles strtod_decimal (fun _ _ => ScanDouble 7)
            sample_indeterminate_int
            (uninit sample_indeterminate_double 9) 9 "1 2 3") = 9.
Proof. vm_compute. split; reflexivity. Qed.

(** ** The further properties on concrete inputs *)

Local Abbreviation sample_parse_doubles :=
  (parse_doubles strtod_decimal sample_wild_sscanf sample_indeterminate_int).

Local Abbreviation sample_sscanf :=
  (sscanf_lg_c_n strtod_decimal sample_wild_sscanf).

Local Abbreviation sample_uninit := (uninit sample_indeterminate_double).

Lemma parse_doubles_nothing_witness :
  (skip_space "  " = EmptyString \/ 9 <= 0)
  /\ sample_parse_doubles (sample_uninit 9) 9 "  " = (sample_uninit 9, 0).
Proof.
  split; [left; reflexivity|].
  apply parse_doubles_nothing. left. reflexivity.
Defined.

Lemma parse_doubles_reads_all_witness :
  reads_numbers strtod_decimal sample_wild_sscanf "1 0 0; 0 1 0; 0 0 1" 0
    [(1%Q, 2); (0%Q, 2); (0%Q, 2); (0%Q, 3); (1%Q, 2); (0%Q, 2); (0%Q, 3);
     (0%Q, 2)]
  /\ sample_sscanf "1 0 0; 0 1 0; 0 0 1" 18 = ScanDouble 1
  /\ sample_parse_doubles (sample_uninit 9) 9 "1 0 0; 0 1 0; 0 0 1"
     = ([1; 0; 0; 0; 1; 0; 0; 0; 1]%Q, 9).
Proof.
  assert (Hr : reads_numbers strtod_decimal sample_wild_sscanf
                 "1 0 0; 0 1 0; 0 0 1" 0
                 [(1%Q, 2); (0%Q, 2); (0%Q, 2); (0%Q, 3); (1%Q, 2); (0%Q, 2);
                  (0%Q, 3); (0%Q, 2)]).
  { cbn [reads_numbers]. repeat split; eexists; vm_compute; reflexivity. }
  split; [exact Hr|]. split; [vm_compute; reflexivity|].
  exact (parse_doubles_reads_all strtod_decimal sample_wild_sscanf
           sample_indeterminate_int (sample_uninit 9) 9
           "1 0 0; 0 1 0; 0 0 1" _ (Some 1%Q) Hr eq_refl eq_refl
           (le_n 9)).
Defined.

Lemma parse_doubles_stops_witness :
  reads_numbers strtod_decimal sample_wild_sscanf "1 2 x" 0 [(1%Q, 2); (2%Q, 2)]
  /\ sample_sscanf "1 2 x" 4 = ScanNoMatch
  /\ sample_parse_doubles (sample_uninit 9) 9 "1 2 x"
     = ([1; 2; 0; 0; 0; 0; 0; 0; 0]%Q, 2).
Proof.
  assert (Hr : reads_numbers strtod_decimal sample_wild_sscanf "1 2 x" 0
                 [(1%Q, 2); (2%Q, 2)]).
  { cbn [reads_numbers]. repeat split; eexists; vm_compute; reflexivity. }
  split; [exact Hr|]. split; [vm_compute; reflexivity|].
  apply (parse_doubles_stops strtod_decimal sample_wild_sscanf
           sample_indeterminate_int (sample_uninit 9) 9 "1 2 x" _ Hr).
  - reflexivity.
  - cbn. lia.
  - right. vm_compute. reflexivity.
Defined.

Lemma parse_doubles_width_assigned_witness :
  (forall d, sample_sscanf "1 2 3" 0 <> ScanDouble d)
  /\ parse_doubles_loop strtod_decimal sample_wild_sscanf
       (sample_uninit 9) 9 "1 2 3" 0 5 0
     = parse_doubles_loop strtod_decimal sample_wild_sscanf
         (sample_uninit 9) 9 "1 2 3" 0 7 0.
Proof.
  assert (Hd : forall d, sample_sscanf "1 2 3" 0 <> ScanDouble d)
    by (intros d; vm_compute; discriminate).
  split; [exact Hd|].
  apply parse_doubles_width_assigned. right. exact Hd.
Defined.

Lemma parse_geometry_explicit_witness :
  sample_parse_geometry 0 0 3 2 sample_H "3x4+5-6" = (0, (5%Q, (-6)%Q, 3, 4))
  /\ 0 < 3 /\ 0 < 4
  /\ (forall x2 y2 w2 h2 H2,
        sample_parse_geometry x2 y2 w2 h2 H2 "3x4+5-6" = (0, (5%Q, (-6)%Q, 3, 4))).
Proof.
  assert (He : sample_parse_geometry 0 0 3 2 sample_H "3x4+5-6"
               = (0, (5%Q, (-6)%Q, 3, 4))) by (vm_compute; reflexivity).
  split; [exact He|].
  destruct (parse_geometry_explicit sample_apply strtod_decimal
              sample_indeterminate_double 0 0 3 2 sample_H "3x4+5-6"
              5%Q (-6)%Q 3 4 eq_refl eq_refl He) as (Hw & Hh & _ & Hall).
  split; [exact Hw|]. split; [exact Hh|exact Hall].
Defined.

Lemma parse_geometry_auto_contains_witness :
  sample_parse_geometry 0 0 3 2 sample_H "auto" = (0, (1%Q, (-1)%Q, 6, 4))
  /\ forall p, In p (corner_images sample_apply 3 2 sample_H) ->
       (1 <= fst p <= 1 + inject_Z 6)%Q /\ (-1 <= snd p <= -1 + inject_Z 4)%Q.
Proof.
  assert (He : sample_parse_geometry 0 0 3 2 sample_H "auto"
               = (0, (1%Q, (-1)%Q, 6, 4))) by (vm_compute; reflexivity).
  split; [exact He|].
  apply (parse_geometry_auto_contains sample_apply strtod_decimal
           sample_indeterminate_double 0 0 3 2 sample_H "auto" 1%Q (-1)%Q 6 4 0
           ltac:(discriminate) eq_refl He).
Defined.

Lemma read_ext_nonempty_prefix_witness :
  "per"%string <> EmptyString
  /\ read_ext "per" 0 = Return (BOUNDARY_PERIODIC, 0).
Proof.
  split; [discriminate|].
  apply (read_ext_nonempty_prefix "per" "periodic" BOUNDARY_PERIODIC 0).
  - discriminate.
  - right. left. reflexivity.
  - reflexivity.
Defined.

Lemma fix_precision_range_witness :
  (0 < 6 <= inject_Z INT_MAX)%Q /\ (0 <= fix_precision 6 < 1)%Q.
Proof.
  assert (H : (0 < 6 <= inject_Z INT_MAX)%Q).
  { split; [reflexivity|vm_compute; discriminate]. }
  split; [exact H|]. apply (fix_precision_range 6 H).
Defined.

Lemma fix_precision_antitone_witness :
  (1 <= 2)%Q /\ (2 <= 5 # 2)%Q
  /\ (fix_precision (5 # 2) <= fix_precision 2)%Q.
Proof.
  split; [discriminate|]. split; [discriminate|].
  apply fix_precision_antitone; discriminate.
Defined.

Lemma splinter_homography_geom_writes_planes_only_witness :
  mem (sample_geom (XState {[100 := 7%Q]} 0 []) 0 0 3 2 [1; 2; 3; 4; 5; 6]%Q
         3 2 1 3 BOUNDARY_PERIODIC (1 # 100) 0 sample_H) !! 100
  = Some 7%Q.
Proof.
  rewrite splinter_homography_geom_writes_planes_only.
  - reflexivity.
  - cbn [out]. intros i j k Hi Hj Hk. lia.
Defined.

Lemma splinter_homography_geom_empty_witness :
  (0 <= 0 \/ 2 <= 0)
  /\ trace (sample_geom (XState ∅ 0 []) 0 0 0 2 [1; 2; 3; 4; 5; 6]%Q
              3 2 1 3 BOUNDARY_PERIODIC (1 # 100) 0 sample_H)
     = [PlanBuilt [1; 2; 3; 4; 5; 6]%Q 3 2 1 3 BOUNDARY_PERIODIC (1 # 100) 0;
        PlanDestroyed
          (sample_splinter_plan [1; 2; 3; 4; 5; 6]%Q 3 2 1 3
             BOUNDARY_PERIODIC (1 # 100) 0)].
Proof.
  split; [left; lia|].
  apply (proj2 (splinter_homography_geom_empty sample_plan sample_splinter_plan
                  sample_splinter sample_invert sample_apply (XState ∅ 0 [])
                  0 0 0 2 [1; 2; 3; 4; 5; 6]%Q 3 2 1 3 BOUNDARY_PERIODIC
                  (1 # 100) 0 sample_H)).
  left. lia.
Defined.

Lemma main_failure_no_calls_witness :
  fst (sample_main ["splinter"]%string) <> EXIT_SUCCESS
  /\ trace (snd (sample_main ["splinter"]%string)) = []
  /\ mem (snd (sample_main ["splinter"]%string)) = ∅.
Proof.
  assert (Hf : fst (sample_main ["splinter"]%string) <> EXIT_SUCCESS)
    by (vm_compute; discriminate).
  split; [exact Hf|].
  exact (proj2 (main_failure_no_calls _ _ _ _ _ _ _ _ _ _ _ _) Hf).
Defined.

Lemma main_success_calls_witness :
  fst (sample_main ["splinter"; "1 0 0 0 1 0 0 0 1"; "in.png";
                    "out.png"]%string) = EXIT_SUCCESS
  /\ exists inp w h c ext larger homo x0 y0 wout hout,
       sample_read "in.png" = (inp, w, h, c)
       /\ trace (snd (sample_main ["splinter"; "1 0 0 0 1 0 0 0 1"; "in.png";
                                   "out.png"]%string))
          = PlanBuilt inp w h c 11 ext (fix_precision 6) larger
            :: map (eval_event sample_plan sample_apply x0 y0
                      (sample_invert homo)
                      (sample_splinter_plan inp w h c 11 ext
                         (fix_precision 6) larger))
                 (pixels wout hout)
            ++ [PlanDestroyed
                  (sample_splinter_plan inp w h c 11 ext
                     (fix_precision 6) larger)].
Proof.
  assert (Hok : fst (sample_main ["splinter"; "1 0 0 0 1 0 0 0 1"; "in.png";
                                  "out.png"]%string) = EXIT_SUCCESS)
    by (vm_compute; reflexivity).
  split; [exact Hok|].
  exact (main_success_calls _ _ _ _ _ _ _ _ _ _ _ _ Hok).
Defined.

Lemma main_defaults_witness :
  11 <= sample_MAX_ORDER
  /\ sample_main ["splinter"; "1 0 0 0 1 0 0 0 1"; "in.png"; "out.png"]%string
     = (EXIT_SUCCESS,
        sample_geom (st0 sample_plan) 0 0 3 2 [1; 2; 3; 4; 5; 6]%Q 3 2 1 11
          BOUNDARY_HSYMMETRIC (fix_precision 6) 0
          [1; 0; 0; 0; 1; 0; 0; 0; 1]%Q).
Proof.
  split; [discriminate|].
  apply (main_defaults sample_plan sample_splinter_plan sample_splinter
           sample_invert sample_apply sample_MAX_ORDER strtod_decimal
           sample_wild_sscanf sample_indeterminate_int
           sample_indeterminate_double sample_read
           ["splinter"; "1 0 0 0 1 0 0 0 1"; "in.png"; "out.png"]%string
           [1; 0; 0; 0; 1; 0; 0; 0; 1]%Q [1; 2; 3; 4; 5; 6]%Q 3 2 1).
  - reflexivity.
  - vm_compute. reflexivity.
  - reflexivity.
  - discriminate.
Defined.

Lemma parse_doubles_fills_witness :
  List.length (sample_uninit 9) = List.length (repeat 5%Q 9)
  /\ sample_parse_doubles (sample_uninit 9) 9 "1 0 0 0 1 0 0 0 1"
     = sample_parse_doubles (repeat 5%Q 9) 9 "1 0 0 0 1 0 0 0 1".
Proof.
  split; [reflexivity|].
  apply (parse_doubles_fills strtod_decimal sample_wild_sscanf
           sample_indeterminate_int (sample_uninit 9) (repeat 5%Q 9) 9
           "1 0 0 0 1 0 0 0 1" eq_refl).
  - reflexivity.
  - vm_compute. reflexivity.
Defined.
